(** * Homomorphic_encryption: the Paillier wrapper and its /compute route

    A shallow embedding of [app/encryption.py] (class
    [HomomorphicEncryption]) and of the handlers of [app/routes.py] that use
    it, with the theorems that settle the specification's claims.

    Layout: Part I holds every definition (the Python run-time fragment the
    code relies on, the [json] codec, the Paillier engine, the wrapper class
    and the route handlers); Part II holds the lemmas and theorems. *)

From Stdlib Require Import ZArith Lia List Bool Ascii String QArith Qabs Qpower.
From Stdlib Require Import Zdivisibility Zcong Zmod Permutation.
Import ListNotations.

Local Open Scope Z_scope.

(* ================================================================== *)
(** * Part I. Definitions *)
(* ================================================================== *)

(** ** Exceptions and results

    Fallible Python code is embedded in an error monad: a call either
    returns a value or raises an exception. *)

(** Exception classes.  The first group are the Python classes the code can
    raise; [HTTPException] is FastAPI's, with its status code and detail;
    the last group are the error kinds named by the specification's
    taxonomy (section 7), raised by the Paillier engine where the
    specification says so. *)
Inductive exn : Type :=
| IndexError
| KeyError (field : string)
| TypeError
| ValueError
| JSONDecodeError
| OverflowError
| ZeroDivisionError
| HTTPException (status_code : Z) (detail : http_detail)
| EncodingOverflow
| DecryptionError
| KeyMismatchError
| EmptyOperandError
| CodecError (field : string)
| InvalidOperationError
| MissingParameterError
with http_detail : Type :=
| Message (text : string)
| Failed (prefix : string) (cause : exn).

Inductive result (A : Type) : Type :=
| Return (a : A)
| Raise (e : exn).
Arguments Return {A} a.
Arguments Raise {A} e.

Definition bind {A B : Type} (m : result A) (k : A -> result B) : result B :=
  match m with
  | Return a => k a
  | Raise e => Raise e
  end.

Notation "x <- m ;; k" := (bind m (fun x => k))
  (at level 61, m at next level, right associativity).
Notation "' pat <- m ;; k" := (bind m (fun x => match x with pat => k end))
  (at level 61, pat pattern, m at next level, right associativity).

(** [try: body except Exception as e: handler e]. *)
Definition try_except {A : Type} (body : result A) (handler : exn -> result A)
  : result A :=
  match body with
  | Return a => Return a
  | Raise e => handler e
  end.

(** ** Big-integer arithmetic used by the engine

    The modular-arithmetic substrate of the engine (section 2 of the
    specification) comes with the python-paillier package and is not under
    [src/]. *)

Module bigint.

(** Modelled from the spec: modular exponentiation of the arithmetic
    substrate, missing with the engine: [a^e mod m], computed by square and
    multiply over the bits of the exponent. *)
Fixpoint powmod_pos (a : Z) (e : positive) (m : Z) : Z :=
  match e with
  | xH => a mod m
  | xO e' => let h := powmod_pos a e' m in (h * h) mod m
  | xI e' => let h := powmod_pos a e' m in ((h * h) mod m * a) mod m
  end.

(** Modelled from the spec: [a^e mod m] (sections 4.2 and 4.3), missing
    with the engine.  No exponent is negative in this program; there the
    function answers what [Z.pow] answers. *)
Definition powmod (a e m : Z) : Z :=
  match e with
  | Z0 => 1 mod m
  | Zpos e' => powmod_pos a e' m
  | Zneg _ => 0
  end.

(** Modelled from the spec: the modular inverse [c^(-1) mod n^2] of
    section 4.3, missing with the engine; it raises when the argument has
    none. *)
Definition invert (a m : Z) : result Z :=
  if Z.gcd a m =? 1 then Return (Z.invmod a m) else Raise ZeroDivisionError.

End bigint.


(** ** Python values and built-ins

    Text is modelled over the code points below 256 (one [ascii] each).
    [object] is what [json.loads] can build, less Python floats. *)

#[local] Set Warnings "-register-all".
Inductive object : Type :=
| PyNone
| PyBool (b : bool)
| PyInt (i : Z)
| PyStr (s : string)
| PyList (elements : list object)
| PyDict (items : list (string * object)).

Module builtins.

Definition dquote : ascii := "034"%char.

Definition code (c : ascii) : Z := Z.of_nat (nat_of_ascii c).

Definition is_digit (c : ascii) : bool := (48 <=? code c) && (code c <=? 57).

Definition digit_value (c : ascii) : Z := code c - 48.

Definition digit_char (d : Z) : ascii := ascii_of_nat (Z.to_nat (48 + d)).

(** The decimal digits of a non-negative integer, most significant first,
    in front of [acc]. *)
Fixpoint digits (fuel : nat) (i : Z) (acc : string) : string :=
  match fuel with
  | O => acc
  | S fuel' =>
      let acc' := String (digit_char (i mod 10)) acc in
      if i <? 10 then acc' else digits fuel' (i / 10) acc'
  end.

(** [str(i)] for an [int]. *)
Definition str (i : Z) : string :=
  if i <? 0
  then String "-" (digits (S (Z.to_nat (Z.log2 (- i)))) (- i) EmptyString)
  else digits (S (Z.to_nat (Z.log2 i))) i EmptyString.

(** Whitespace as [str.strip] and [int] see it. *)
Definition is_space (c : ascii) : bool :=
  ((9 <=? code c) && (code c <=? 13)) || ((28 <=? code c) && (code c <=? 32))
  || (code c =? 133) || (code c =? 160).

Fixpoint lstrip (s : string) : string :=
  match s with
  | String c s' => if is_space c then lstrip s' else s
  | EmptyString => EmptyString
  end.

Fixpoint rstrip (s : string) : string :=
  match s with
  | String c s' =>
      match rstrip s' with
      | EmptyString => if is_space c then EmptyString else String c EmptyString
      | r => String c r
      end
  | EmptyString => EmptyString
  end.

Definition strip (s : string) : string := rstrip (lstrip s).

(** The digits of an integer literal: at least one digit, single
    underscores allowed between digits. *)
Fixpoint int_digits (s : string) (acc : Z) (after_digit : bool) : option Z :=
  match s with
  | EmptyString => if after_digit then Some acc else None
  | String c s' =>
      if is_digit c then int_digits s' (10 * acc + digit_value c) true
      else if Ascii.eqb c "_" && after_digit then
        match s' with
        | EmptyString => None
        | String _ _ => int_digits s' acc false
        end
      else None
  end.

(** [int(s)] for a [str]: surrounding whitespace, an optional sign, decimal
    digits. *)
Definition int_of_str (s : string) : result Z :=
  let unsigned (t : string) :=
    match int_digits t 0 false with
    | Some v => Return v
    | None => Raise ValueError
    end in
  match strip s with
  | String c t =>
      if Ascii.eqb c "-" then v <- unsigned t ;; Return (- v)
      else if Ascii.eqb c "+" then unsigned t
      else unsigned (String c t)
  | EmptyString => Raise ValueError
  end.

(** [int(x)]: integers and booleans convert, strings are parsed, any other
    object is a [TypeError]. *)
Definition int (x : object) : result Z :=
  match x with
  | PyInt i => Return i
  | PyBool b => Return (if b then 1 else 0)
  | PyStr s => int_of_str s
  | PyNone | PyList _ | PyDict _ => Raise TypeError
  end.

(** [s.lower()]: the letters A-Z and, above 127, the capital letters of
    Latin-1 move 32 code points up. *)
Definition lower_char (c : ascii) : ascii :=
  if ((65 <=? code c) && (code c <=? 90))
     || ((192 <=? code c) && (code c <=? 222) && negb (code c =? 215))
  then ascii_of_nat (nat_of_ascii c + 32)
  else c.

Fixpoint lower (s : string) : string :=
  match s with
  | EmptyString => EmptyString
  | String c s' => String (lower_char c) (lower s')
  end.

(** [d[key]] for a dict built by insertion. *)
Fixpoint dict_get (items : list (string * object)) (key : string)
  : option object :=
  match items with
  | [] => None
  | (k, v) :: rest => if String.eqb k key then Some v else dict_get rest key
  end.

(** [d[key] = v]: replaces the value in place or appends the item. *)
Fixpoint dict_set (items : list (string * object)) (key : string) (v : object)
  : list (string * object) :=
  match items with
  | [] => [(key, v)]
  | (k, w) :: rest =>
      if String.eqb k key then (k, v) :: rest
      else (k, w) :: dict_set rest key v
  end.

(** [x[key]] with a string key: a dict answers or raises [KeyError]; no
    other object takes a string subscript. *)
Definition getitem (x : object) (key : string) : result object :=
  match x with
  | PyDict items =>
      match dict_get items key with
      | Some v => Return v
      | None => Raise (KeyError key)
      end
  | _ => Raise TypeError
  end.

(** [xs[i]] for a list. *)
Definition list_getitem {A : Type} (xs : list A) (i : nat) : result A :=
  match nth_error xs i with
  | Some x => Return x
  | None => Raise IndexError
  end.

End builtins.

(** ** The [json] module

    [dumps] writes the compact-with-spaces form of Python's encoder
    ([", "] and [": "] separators, ASCII output).  [loads] reads JSON text
    into objects.  Python floats are not modelled: a number literal with a
    fraction or an exponent part, which the codec of this program never
    writes, is rejected here. *)

Module json.
Import builtins.
Local Open Scope string_scope.
Local Open Scope Z_scope.

Definition hex_char (d : Z) : ascii :=
  if d <? 10 then ascii_of_nat (Z.to_nat (48 + d))
  else ascii_of_nat (Z.to_nat (87 + d)).

(** One character inside a string literal, escaped as the encoder does. *)
Definition escape_char (c : ascii) : string :=
  if Ascii.eqb c dquote then String "\" (String dquote EmptyString)
  else if Ascii.eqb c "\" then "\\"
  else if code c =? 10 then "\n"
  else if code c =? 13 then "\r"
  else if code c =? 9 then "\t"
  else if code c =? 8 then "\b"
  else if code c =? 12 then "\f"
  else if (code c <? 32) || (126 <? code c)
  then "\u00" ++ String (hex_char (code c / 16))
                   (String (hex_char (code c mod 16)) EmptyString)
  else String c EmptyString.

Fixpoint escape (s : string) : string :=
  match s with
  | EmptyString => EmptyString
  | String c s' => escape_char c ++ escape s'
  end.

Definition quote (s : string) : string :=
  String dquote (escape s ++ String dquote EmptyString).

Fixpoint join (sep : string) (parts : list string) : string :=
  match parts with
  | [] => EmptyString
  | [x] => x
  | x :: rest => x ++ sep ++ join sep rest
  end.

(** [json.dumps(obj)]. *)
Fixpoint dumps (obj : object) : string :=
  match obj with
  | PyNone => "null"
  | PyBool true => "true"
  | PyBool false => "false"
  | PyInt i => str i
  | PyStr s => quote s
  | PyList elements =>
      "[" ++ join ", " (map dumps elements) ++ "]"
  | PyDict items =>
      "{" ++ join ", " (map (fun kv => quote (fst kv) ++ ": " ++ dumps (snd kv))
                           items) ++ "}"
  end.

Definition is_ws (c : ascii) : bool :=
  (code c =? 32) || (code c =? 9) || (code c =? 10) || (code c =? 13).

Fixpoint skip_ws (s : string) : string :=
  match s with
  | String c s' => if is_ws c then skip_ws s' else s
  | EmptyString => EmptyString
  end.

Definition hex_value (c : ascii) : option Z :=
  if is_digit c then Some (code c - 48)
  else if (97 <=? code c) && (code c <=? 102) then Some (code c - 87)
  else if (65 <=? code c) && (code c <=? 70) then Some (code c - 55)
  else None.

(** The character a backslash escape stands for; [\u] escapes answer only
    below code point 256. *)
Definition unescape (e : ascii) (s : string) : option (ascii * string) :=
  if Ascii.eqb e dquote then Some (dquote, s)
  else if Ascii.eqb e "\" then Some ("\"%char, s)
  else if Ascii.eqb e "/" then Some ("/"%char, s)
  else if Ascii.eqb e "b" then Some ("008"%char, s)
  else if Ascii.eqb e "f" then Some ("012"%char, s)
  else if Ascii.eqb e "n" then Some ("010"%char, s)
  else if Ascii.eqb e "r" then Some ("013"%char, s)
  else if Ascii.eqb e "t" then Some ("009"%char, s)
  else if Ascii.eqb e "u" then
    match s with
    | String h1 (String h2 (String h3 (String h4 s'))) =>
        match hex_value h1, hex_value h2, hex_value h3, hex_value h4 with
        | Some 0, Some 0, Some d3, Some d4 =>
            Some (ascii_of_nat (Z.to_nat (16 * d3 + d4)), s')
        | _, _, _, _ => None
        end
    | _ => None
    end
  else None.

(** The contents of a string literal whose opening quote has been read,
    and the text after its closing quote. *)
Fixpoint scan_string (fuel : nat) (s : string) : option (string * string) :=
  match fuel with
  | O => None
  | S fuel' =>
      match s with
      | EmptyString => None
      | String c s' =>
          if Ascii.eqb c dquote then Some (EmptyString, s')
          else if Ascii.eqb c "\" then
            match s' with
            | EmptyString => None
            | String e s'' =>
                match unescape e s'' with
                | Some (d, rest) =>
                    match scan_string fuel' rest with
                    | Some (body, rest') => Some (String d body, rest')
                    | None => None
                    end
                | None => None
                end
            end
          else if code c <? 32 then None
          else
            match scan_string fuel' s' with
            | Some (body, rest') => Some (String c body, rest')
            | None => None
            end
      end
  end.

Fixpoint span_digits (s : string) : string * string :=
  match s with
  | String c s' =>
      if is_digit c
      then let (ds, rest) := span_digits s' in (String c ds, rest)
      else (EmptyString, s)
  | EmptyString => (EmptyString, EmptyString)
  end.

Fixpoint digits_value (ds : string) (acc : Z) : Z :=
  match ds with
  | EmptyString => acc
  | String c ds' => digits_value ds' (10 * acc + digit_value c)
  end.

Definition starts_fraction_or_exponent (s : string) : bool :=
  match s with
  | String c _ => Ascii.eqb c "." || Ascii.eqb c "e" || Ascii.eqb c "E"
  | EmptyString => false
  end.

(** The digits of an integer literal: a lone [0], or a non-zero digit and
    the digits after it. *)
Definition scan_unsigned (s : string) : option (Z * string) :=
  match s with
  | String c s' =>
      if Ascii.eqb c "0" then
        if starts_fraction_or_exponent s' then None else Some (0, s')
      else if is_digit c then
        let (ds, rest) := span_digits s' in
        if starts_fraction_or_exponent rest then None
        else Some (digits_value ds (digit_value c), rest)
      else None
  | EmptyString => None
  end.

Definition scan_number (s : string) : option (object * string) :=
  match s with
  | String c s' =>
      if Ascii.eqb c "-" then
        match scan_unsigned s' with
        | Some (v, rest) => Some (PyInt (- v), rest)
        | None => None
        end
      else
        match scan_unsigned s with
        | Some (v, rest) => Some (PyInt v, rest)
        | None => None
        end
  | EmptyString => None
  end.

(** The text after a fixed word, when the text starts with it. *)
Fixpoint expect (word s : string) : option string :=
  match word, s with
  | EmptyString, _ => Some s
  | String c word', String d s' =>
      if Ascii.eqb c d then expect word' s' else None
  | String _ _, EmptyString => None
  end.

(** Values, array elements and object members, by recursion on a fuel that
    [loads] sets above the length of the text. *)
Fixpoint parse_value (fuel : nat) (s : string) : option (object * string) :=
  match fuel with
  | O => None
  | S fuel' =>
      match s with
      | EmptyString => None
      | String c s' =>
          if Ascii.eqb c "{" then
            match skip_ws s' with
            | String "}" rest => Some (PyDict [], rest)
            | s1 =>
                match parse_members fuel' s1 [] with
                | Some (items, rest) => Some (PyDict items, rest)
                | None => None
                end
            end
          else if Ascii.eqb c "[" then
            match skip_ws s' with
            | String "]" rest => Some (PyList [], rest)
            | s1 =>
                match parse_elements fuel' s1 with
                | Some (elements, rest) => Some (PyList elements, rest)
                | None => None
                end
            end
          else if Ascii.eqb c dquote then
            match scan_string (String.length s') s' with
            | Some (body, rest) => Some (PyStr body, rest)
            | None => None
            end
          else if Ascii.eqb c "t" then
            option_map (pair (PyBool true)) (expect "rue" s')
          else if Ascii.eqb c "f" then
            option_map (pair (PyBool false)) (expect "alse" s')
          else if Ascii.eqb c "n" then
            option_map (pair PyNone) (expect "ull" s')
          else scan_number s
      end
  end

with parse_elements (fuel : nat) (s : string)
  : option (list object * string) :=
  match fuel with
  | O => None
  | S fuel' =>
      match parse_value fuel' s with
      | Some (v, rest) =>
          match skip_ws rest with
          | String "," rest' =>
              match parse_elements fuel' (skip_ws rest') with
              | Some (vs, rest'') => Some (v :: vs, rest'')
              | None => None
              end
          | String "]" rest' => Some ([v], rest')
          | _ => None
          end
      | None => None
      end
  end

with parse_members (fuel : nat) (s : string) (items : list (string * object))
  : option (list (string * object) * string) :=
  match fuel with
  | O => None
  | S fuel' =>
      match s with
      | String c s' =>
          if Ascii.eqb c dquote then
            match scan_string (String.length s') s' with
            | Some (key, rest) =>
                match skip_ws rest with
                | String ":" rest' =>
                    match parse_value fuel' (skip_ws rest') with
                    | Some (v, rest'') =>
                        let items' := dict_set items key v in
                        match skip_ws rest'' with
                        | String "," rest3 =>
                            parse_members fuel' (skip_ws rest3) items'
                        | String "}" rest3 => Some (items', rest3)
                        | _ => None
                        end
                    | None => None
                    end
                | _ => None
                end
            | None => None
            end
          else None
      | EmptyString => None
      end
  end.

(** [json.loads(s)]. *)
Definition loads (s : string) : result object :=
  match parse_value (S (String.length s)) (skip_ws s) with
  | Some (v, rest) =>
      match skip_ws rest with
      | EmptyString => Return v
      | String _ _ => Raise JSONDecodeError
      end
  | None => Raise JSONDecodeError
  end.

End json.
(** ** Plaintext numbers

    The plaintexts of the API are Python numbers ([int] or binary64
    [float]).  Every finite one is exactly [mantissa * 16 ^ scale] for two
    integers, and the engine's encoder finds such a pair without loss
    (section 3 of the specification: fractional values are represented as a
    mantissa and a base-2 or base-16 exponent).  The embedding takes a
    number in that form and computes with it exactly.  The rounding that
    Python applies when it turns a decrypted pair back into a [float] is
    outside the embedding: [value] is the exact rational. *)

Record Number : Type := { mantissa : Z; scale : Z }.

(** Modelled from the spec: the base of the encoding exponent (section 3),
    missing with the engine; the engine scales by powers of 16. *)
Definition BASE : Z := 16.

(** The rational number that a scaled integer stands for. *)
Definition value (x : Number) : Q :=
  (inject_Z (mantissa x) * Qpower (inject_Z BASE) (scale x))%Q.

(** A Python [int] as a plaintext: scale 0. *)
Definition of_int (i : Z) : Number := {| mantissa := i; scale := 0 |}.

(** ** The Paillier engine ([phe.paillier])

    The source imports the engine from the python-paillier package, whose
    code is not under [src/].  Every definition of this module is modelled
    from the specification (sections 3 and 4); where the specification is
    silent (the signed plaintext range), the module follows the convention
    of that package, as noted. *)

Module paillier.
Import bigint.

(** Modelled from the spec: PublicKey (section 3), missing with the engine,
    with [g = n + 1]; the signed plaintext range [max_int = n / 3 - 1] is
    the engine's own convention, which the specification leaves open. *)
Module PaillierPublicKey.
Record t : Type := make { n : Z }.
Definition g (pk : t) : Z := n pk + 1.
Definition nsquare (pk : t) : Z := n pk * n pk.
Definition max_int (pk : t) : Z := n pk / 3 - 1.
Definition eqb (a b : t) : bool := n a =? n b.
End PaillierPublicKey.

(** Modelled from the spec: PrivateKey (section 3), missing with the
    engine, with its invariants [p * q = n] and [p <> q] checked when the
    object is built; [lambda] and [mu] are derived on demand. *)
Module PaillierPrivateKey.
Record t : Type := make {
  public_key : PaillierPublicKey.t;
  p : Z;
  q : Z
}.
Definition init (public_key : PaillierPublicKey.t) (p q : Z) : result t :=
  if negb (p * q =? PaillierPublicKey.n public_key) then Raise ValueError
  else if p =? q then Raise ValueError
  else Return (make public_key p q).
Definition lambda (sk : t) : Z := Z.lcm (p sk - 1) (q sk - 1).
Definition mu (sk : t) : Z :=
  Z.invmod (lambda sk) (PaillierPublicKey.n (public_key sk)).
End PaillierPrivateKey.

(** Modelled from the spec: the integer encoding of a plaintext (section
    4.2), missing with the engine: a residue in [[0, n)] and the exponent of
    its scale. *)
Module EncodedNumber.
Record t : Type := make {
  public_key : PaillierPublicKey.t;
  encoding : Z;
  exponent : Z
}.

(** Modelled from the spec: encoding (section 4.2), missing with the
    engine.  Negative mantissas are mapped into [[0, n)] by [mod n]; a
    mantissa outside the signed range fails with [EncodingOverflow]. *)
Definition encode (public_key : PaillierPublicKey.t) (x : Number) : result t :=
  if Z.abs (mantissa x) >? PaillierPublicKey.max_int public_key
  then Raise EncodingOverflow
  else Return (make public_key
                    (mantissa x mod PaillierPublicKey.n public_key)
                    (scale x)).

(** Modelled from the spec: decoding (section 4.2), missing with the
    engine.  The residues up to [max_int] are the non-negative mantissas,
    the residues from [n - max_int] the negative ones; the gap between the
    two is an overflow (the engine's convention). *)
Definition decode (e : t) : result Number :=
  let pk := public_key e in
  if encoding e >=? PaillierPublicKey.n pk then Raise ValueError
  else if encoding e <=? PaillierPublicKey.max_int pk
  then Return {| mantissa := encoding e; scale := exponent e |}
  else if encoding e >=? PaillierPublicKey.n pk - PaillierPublicKey.max_int pk
  then Return {| mantissa := encoding e - PaillierPublicKey.n pk;
                 scale := exponent e |}
  else Raise OverflowError.
End EncodedNumber.

(** Modelled from the spec: raw encryption, missing with the engine:
    [c = g^m * r^n mod n^2] (section 4.2).  The blinding factor [r] is the
    randomness the call draws; it is an explicit argument here. *)
Definition raw_encrypt (pk : PaillierPublicKey.t) (plaintext r : Z) : Z :=
  let nsquare := PaillierPublicKey.nsquare pk in
  (powmod (PaillierPublicKey.g pk) plaintext nsquare
   * powmod r (PaillierPublicKey.n pk) nsquare) mod nsquare.

(** Modelled from the spec: the function [L] of decryption, missing with
    the engine: [L(x) = (x - 1) / n] (section 4.2). *)
Definition l_function (x n : Z) : Z := (x - 1) / n.

(** Modelled from the spec: raw decryption, missing with the engine:
    [u = L(c^lambda mod n^2) * mu mod n] (section 4.2). *)
Definition raw_decrypt (sk : PaillierPrivateKey.t) (ciphertext : Z) : Z :=
  let pk := PaillierPrivateKey.public_key sk in
  let n := PaillierPublicKey.n pk in
  (l_function (powmod ciphertext (PaillierPrivateKey.lambda sk)
                      (PaillierPublicKey.nsquare pk)) n
   * PaillierPrivateKey.mu sk) mod n.

(** Modelled from the spec: EncryptedNumber (section 3) and the homomorphic
    operations on it (section 4.3), missing with the engine. *)
Module EncryptedNumber.
Record t : Type := make {
  public_key : PaillierPublicKey.t;
  ciphertext : Z;
  exponent : Z
}.

(** Modelled from the spec: the exponent alignment of [add] (section
    4.3), missing with the engine: rescaling to a smaller exponent by
    ciphertext exponentiation. *)
Definition decrease_exponent_to (a : t) (new_exp : Z) : t :=
  make (public_key a)
       (powmod (ciphertext a) (BASE ^ (exponent a - new_exp))
               (PaillierPublicKey.nsquare (public_key a)))
       new_exp.

(** Modelled from the spec: [add] (section 4.3), missing with the engine.
    [a + b]: the key check comes first, then the operand with the larger
    exponent is rescaled to the smaller one, then the ciphertexts are
    multiplied modulo [n^2]. *)
Definition add (a b : t) : result t :=
  if negb (PaillierPublicKey.eqb (public_key a) (public_key b))
  then Raise KeyMismatchError
  else
    let a' := if exponent a >? exponent b
              then decrease_exponent_to a (exponent b) else a in
    let b' := if exponent a <? exponent b
              then decrease_exponent_to b (exponent a) else b in
    Return (make (public_key a)
                 ((ciphertext a' * ciphertext b')
                    mod PaillierPublicKey.nsquare (public_key a))
                 (exponent a')).

(** Modelled from the spec: [scalarMultiply] (section 4.3), missing with
    the engine.  [a * scalar]: the scalar is encoded like a plaintext; the
    ciphertext is raised to the absolute value of its mantissa and, for a
    negative scalar, inverted modulo [n^2]; the exponents add up. *)
Definition mul (a : t) (scalar : Number) : result t :=
  let pk := public_key a in
  if Z.abs (mantissa scalar) >? PaillierPublicKey.max_int pk
  then Raise EncodingOverflow
  else
    let c := powmod (ciphertext a) (Z.abs (mantissa scalar))
                    (PaillierPublicKey.nsquare pk) in
    c' <- (if mantissa scalar <? 0
           then invert c (PaillierPublicKey.nsquare pk)
           else Return c) ;;
    Return (make pk c' (exponent a + scale scalar)).
End EncryptedNumber.

(** Modelled from the spec: [encrypt] (section 4.2), missing with the
    engine: [public_key.encrypt(number)]. *)
Definition encrypt (pk : PaillierPublicKey.t) (x : Number) (r : Z)
  : result EncryptedNumber.t :=
  e <- EncodedNumber.encode pk x ;;
  Return (EncryptedNumber.make pk
            (raw_encrypt pk (EncodedNumber.encoding e) r)
            (EncodedNumber.exponent e)).

(** Modelled from the spec: [decrypt] (section 4.2), missing with the
    engine.  [private_key.decrypt(encrypted_number)]: fails with
    [DecryptionError] when the primes do not multiply to [n] or the
    ciphertext is not a unit modulo [n^2]; otherwise decrypts and decodes. *)
Definition decrypt (sk : PaillierPrivateKey.t) (c : EncryptedNumber.t)
  : result Number :=
  let pk := PaillierPrivateKey.public_key sk in
  if negb (PaillierPrivateKey.p sk * PaillierPrivateKey.q sk
           =? PaillierPublicKey.n pk)
  then Raise DecryptionError
  else if negb (Z.gcd (EncryptedNumber.ciphertext c)
                      (PaillierPublicKey.nsquare pk) =? 1)
  then Raise DecryptionError
  else EncodedNumber.decode
         (EncodedNumber.make pk
            (raw_decrypt sk (EncryptedNumber.ciphertext c))
            (EncryptedNumber.exponent c)).

(** Modelled from the spec: KeyGenerator (section 4.1), missing with the
    engine.  What key generation promises of its result (sections 3 and
    4.1): two distinct primes, their product, and [gcd(n, lambda) = 1]. *)
Definition keypair (pk : PaillierPublicKey.t) (sk : PaillierPrivateKey.t)
  : Prop :=
  PaillierPrivateKey.public_key sk = pk /\
  Z.prime (PaillierPrivateKey.p sk) /\
  Z.prime (PaillierPrivateKey.q sk) /\
  PaillierPrivateKey.p sk <> PaillierPrivateKey.q sk /\
  PaillierPublicKey.n pk = PaillierPrivateKey.p sk * PaillierPrivateKey.q sk /\
  Z.gcd (PaillierPublicKey.n pk) (PaillierPrivateKey.lambda sk) = 1.

(** Modelled from the spec: [generate(bitLength)] (section 4.1), missing
    with the engine.  [generate_paillier_keypair(n_length)]: a key pair
    whose modulus has exactly [n_length] bits. *)
Definition generated (n_length : Z) (pk : PaillierPublicKey.t)
           (sk : PaillierPrivateKey.t) : Prop :=
  keypair pk sk /\ Z.log2 (PaillierPublicKey.n pk) = n_length - 1.

(** Modelled from the spec: the blinding factor of [encrypt] (section 4.2),
    missing with the engine.  A blinding factor is drawn in [[1, n)],
    coprime to [n]. *)
Definition blinding (pk : PaillierPublicKey.t) (r : Z) : Prop :=
  0 < r < PaillierPublicKey.n pk /\ Z.gcd r (PaillierPublicKey.n pk) = 1.

(** The invariant of a ciphertext: [c] is a unit modulo [n^2] and
    [c^lambda = 1 + m * lambda * n] modulo [n^2], which is what decryption
    reads the plaintext [m] from (any integer; only [m mod n] matters). *)
Definition carries (sk : PaillierPrivateKey.t) (c m : Z) : Prop :=
  let pk := PaillierPrivateKey.public_key sk in
  let nsquare := PaillierPublicKey.nsquare pk in
  0 <= c < nsquare /\
  Z.gcd c nsquare = 1 /\
  c ^ PaillierPrivateKey.lambda sk mod nsquare
  = (1 + m * PaillierPrivateKey.lambda sk * PaillierPublicKey.n pk) mod nsquare.

End paillier.

(** ** [app/encryption.py]: class [HomomorphicEncryption]

    The randomness a call draws (primes, blinding factors) is an explicit
    argument of its embedding. *)

Module HomomorphicEncryption.
Import builtins paillier.
Local Open Scope string_scope.
Local Open Scope Z_scope.

(** [generate_keypair()]: the engine draws the primes; the pairs the call
    can return are those of [generate_paillier_keypair(n_length=512)]. *)
Definition generate_keypair (public_key : PaillierPublicKey.t)
           (private_key : PaillierPrivateKey.t) : Prop :=
  generated 512 public_key private_key.

Definition serialize_public_key (public_key : PaillierPublicKey.t) : string :=
  json.dumps (PyDict [("n", PyInt (PaillierPublicKey.n public_key))]).

Definition deserialize_public_key (key_str : string)
  : result PaillierPublicKey.t :=
  key_data <- json.loads key_str ;;
  v <- getitem key_data "n" ;;
  n <- int v ;;
  Return (PaillierPublicKey.make n).

Definition serialize_private_key (private_key : PaillierPrivateKey.t)
  : string :=
  json.dumps (PyDict [("p", PyInt (PaillierPrivateKey.p private_key));
                      ("q", PyInt (PaillierPrivateKey.q private_key))]).

Definition deserialize_private_key (key_str : string)
           (public_key : PaillierPublicKey.t) : result PaillierPrivateKey.t :=
  key_data <- json.loads key_str ;;
  vp <- getitem key_data "p" ;;
  p <- int vp ;;
  vq <- getitem key_data "q" ;;
  q <- int vq ;;
  PaillierPrivateKey.init public_key p q.

(** The serialized form of a ciphertext, written out in [encrypt_number],
    [add_encrypted_numbers] and [multiply_encrypted_by_scalar]:
    [json.dumps({'ciphertext': str(x.ciphertext()), 'exponent': x.exponent})]. *)
Definition dump_encrypted (x : EncryptedNumber.t) : string :=
  json.dumps (PyDict [("ciphertext", PyStr (str (EncryptedNumber.ciphertext x)));
                      ("exponent", PyInt (EncryptedNumber.exponent x))]).

(** The exponent is handed to the engine as decoded; the engine does integer
    arithmetic on it, which Python refuses with [TypeError] for anything but
    an integer.  The embedding raises at construction. *)
Definition as_exponent (x : object) : result Z :=
  match x with
  | PyInt i => Return i
  | PyBool b => Return (if b then 1 else 0)
  | _ => Raise TypeError
  end.

(** The reconstruction of a ciphertext, written out in [decrypt_number],
    [add_encrypted_numbers] (twice) and [multiply_encrypted_by_scalar]:
    [data = json.loads(s)] and
    [paillier.EncryptedNumber(public_key=public_key,
       ciphertext=int(data['ciphertext']), exponent=data['exponent'])]. *)
Definition load_encrypted (public_key : PaillierPublicKey.t)
           (encrypted_str : string) : result EncryptedNumber.t :=
  data <- json.loads encrypted_str ;;
  vc <- getitem data "ciphertext" ;;
  ciphertext <- int vc ;;
  ve <- getitem data "exponent" ;;
  exponent <- as_exponent ve ;;
  Return (EncryptedNumber.make public_key ciphertext exponent).

Definition encrypt_number (public_key : PaillierPublicKey.t) (number : Number)
           (r : Z) : result string :=
  encrypted <- encrypt public_key number r ;;
  Return (dump_encrypted encrypted).

Definition decrypt_number (private_key : PaillierPrivateKey.t)
           (encrypted_str : string) : result Number :=
  encrypted_num <- load_encrypted (PaillierPrivateKey.public_key private_key)
                                  encrypted_str ;;
  decrypt private_key encrypted_num.

(** The loop [for encrypted_str in encrypted_nums[1:]]. *)
Fixpoint add_remaining (public_key : PaillierPublicKey.t)
         (res : EncryptedNumber.t) (rest : list string)
  : result EncryptedNumber.t :=
  match rest with
  | [] => Return res
  | encrypted_str :: rest' =>
      encrypted_num <- load_encrypted public_key encrypted_str ;;
      res' <- EncryptedNumber.add res encrypted_num ;;
      add_remaining public_key res' rest'
  end.

Definition add_encrypted_numbers (public_key : PaillierPublicKey.t)
           (encrypted_nums : list string) : result string :=
  first <- list_getitem encrypted_nums 0 ;;
  res <- load_encrypted public_key first ;;
  res <- add_remaining public_key res (tl encrypted_nums) ;;
  Return (dump_encrypted res).

Definition multiply_encrypted_by_scalar (public_key : PaillierPublicKey.t)
           (encrypted_str : string) (scalar : Number) : result string :=
  encrypted_num <- load_encrypted public_key encrypted_str ;;
  res <- EncryptedNumber.mul encrypted_num scalar ;;
  Return (dump_encrypted res).

End HomomorphicEncryption.

(** ** [app/models.py] and [app/routes.py] *)

Module models.

Record ComputeRequest : Type := {
  encrypted_numbers : list string;
  public_key : string;
  operation : string;
  multiplier : option Number
}.

Record ComputeResponse : Type := { encrypted_result : string }.

End models.

Module routes.
Import builtins paillier models.
Local Open Scope string_scope.
Local Open Scope Z_scope.

(** [POST /compute]. *)
Definition compute_on_encrypted (request : ComputeRequest)
  : result ComputeResponse :=
  try_except
    (public_key <- HomomorphicEncryption.deserialize_public_key
                     (public_key request) ;;
     let operation := lower (operation request) in
     res <-
       (if String.eqb operation "add" || String.eqb operation "sum" then
          HomomorphicEncryption.add_encrypted_numbers
            public_key (encrypted_numbers request)
        else if String.eqb operation "multiply" then
          match multiplier request with
          | None =>
              Raise (HTTPException 400
                       (Message "Multiplier required for multiply operation"))
          | Some multiplier =>
              first <- list_getitem (encrypted_numbers request) 0 ;;
              HomomorphicEncryption.multiply_encrypted_by_scalar
                public_key first multiplier
          end
        else
          Raise (HTTPException 400
                   (Message "Invalid operation. Use 'add', 'sum', or 'multiply'"))) ;;
     Return {| encrypted_result := res |})
    (fun e =>
       match e with
       | HTTPException _ _ => Raise e
       | _ => Raise (HTTPException 500 (Failed "Computation failed: " e))
       end).




End routes.

(** ** The [*] operator on decoded objects

    [/decrypt] multiplies two fields of the decoded private key as they
    come out of [json.loads]. *)

Module operators.
Local Open Scope string_scope.
Local Open Scope Z_scope.

(** The objects that Python takes as an integer operand: [int] and [bool]. *)
Definition index (x : object) : option Z :=
  match x with
  | PyInt i => Some i
  | PyBool b => Some (if b then 1 else 0)
  | _ => None
  end.

Fixpoint repeat_str (s : string) (n : nat) : string :=
  match n with
  | O => EmptyString
  | S n' => s ++ repeat_str s n'
  end.

(** [x * y]: integers multiply; a string or a list times an integer is
    repeated (not at all for a count below 1; counts that exhaust memory are
    outside the model); any other pair of operands is a [TypeError]. *)
Definition mul (x y : object) : result object :=
  match index x, index y with
  | Some a, Some b => Return (PyInt (a * b))
  | None, Some n =>
      match x with
      | PyStr s => Return (PyStr (repeat_str s (Z.to_nat n)))
      | PyList l => Return (PyList (List.concat (List.repeat l (Z.to_nat n))))
      | _ => Raise TypeError
      end
  | Some n, None =>
      match y with
      | PyStr s => Return (PyStr (repeat_str s (Z.to_nat n)))
      | PyList l => Return (PyList (List.concat (List.repeat l (Z.to_nat n))))
      | _ => Raise TypeError
      end
  | None, None => Raise TypeError
  end.

End operators.

(** ** [app/models.py]: the models of [/encrypt] and [/decrypt] *)

Module EncryptRequest.
Record t : Type := make { numbers : list Number }.
End EncryptRequest.

Module EncryptResponse.
Record t : Type := make {
  encrypted_numbers : list string;
  public_key : string;
  private_key : string
}.
End EncryptResponse.

Module DecryptRequest.
Record t : Type := make { encrypted_value : string; private_key : string }.
End DecryptRequest.

Module DecryptResponse.
Record t : Type := make { decrypted_value : Number }.
End DecryptResponse.

(** ** [app/routes.py]: [/encrypt] and [/decrypt] *)

Module key_routes.
Import builtins paillier.
Local Open Scope string_scope.
Local Open Scope Z_scope.

(** [temp_keypair_storage]: a module-level dict from serialized public keys
    to serialized private keys.  The handlers that use it take the dict and
    return it as they leave it. *)
Definition storage : Type := list (string * object).

(** [[encrypt_number(public_key, num) for num in request.numbers]]; the
    [i]-th call draws the blinding factor [draw i]. *)
Fixpoint encrypt_each (public_key : PaillierPublicKey.t)
         (numbers : list Number) (draw : nat -> Z) (i : nat)
  : result (list string) :=
  match numbers with
  | [] => Return []
  | num :: rest =>
      e <- HomomorphicEncryption.encrypt_number public_key num (draw i) ;;
      es <- encrypt_each public_key rest draw (S i) ;;
      Return (e :: es)
  end.

(** [POST /encrypt], given the key pair that [generate_keypair()] draws and
    the blinding factors. *)
Definition encrypt_numbers (temp_keypair_storage : storage)
           (request : EncryptRequest.t)
           (public_key : PaillierPublicKey.t)
           (private_key : PaillierPrivateKey.t) (draw : nat -> Z)
  : storage * result EncryptResponse.t :=
  match
    encrypted_numbers <- encrypt_each public_key
                           (EncryptRequest.numbers request) draw 0 ;;
    let public_key_str :=
      HomomorphicEncryption.serialize_public_key public_key in
    let private_key_str :=
      HomomorphicEncryption.serialize_private_key private_key in
    Return (dict_set temp_keypair_storage public_key_str
                     (PyStr private_key_str),
            EncryptResponse.make encrypted_numbers public_key_str
                                 private_key_str)
  with
  | Return (temp_keypair_storage', response) =>
      (temp_keypair_storage', Return response)
  | Raise e =>
      (temp_keypair_storage,
       Raise (HTTPException 500 (Failed "Encryption failed: " e)))
  end.

(** [POST /decrypt]. *)
Definition decrypt_value (request : DecryptRequest.t)
  : result DecryptResponse.t :=
  try_except
    (let private_key_str := DecryptRequest.private_key request in
     priv_data <- json.loads private_key_str ;;
     vp <- getitem priv_data "p" ;;
     vq <- getitem priv_data "q" ;;
     n <- operators.mul vp vq ;;
     let public_key_str := json.dumps (PyDict [("n", n)]) in
     public_key <- HomomorphicEncryption.deserialize_public_key
                     public_key_str ;;
     private_key <- HomomorphicEncryption.deserialize_private_key
                      private_key_str public_key ;;
     decrypted <- HomomorphicEncryption.decrypt_number
                    private_key (DecryptRequest.encrypted_value request) ;;
     Return (DecryptResponse.make decrypted))
    (fun e => Raise (HTTPException 500 (Failed "Decryption failed: " e))).

End key_routes.

(** ** Exact arithmetic on plaintext numbers

    What the decrypted results are compared with: the sum and the product
    of scaled integers, computed without rounding. *)

Definition number_add (x y : Number) : Number :=
  let e := Z.min (scale x) (scale y) in
  {| mantissa := mantissa x * BASE ^ (scale x - e)
                 + mantissa y * BASE ^ (scale y - e);
     scale := e |}.

Definition number_mul (x k : Number) : Number :=
  {| mantissa := mantissa x * mantissa k; scale := scale x + scale k |}.

Definition number_sum (x : Number) (xs : list Number) : Number :=
  fold_left number_add xs x.

(** A binary64 float as the encoder scales it: the 53 bits of the
    significand and at most 4 more from the base-16 exponent. *)
Definition is_float (x : Number) : Prop := Z.abs (mantissa x) < 2 ^ 57.

(** The mantissa lies in the signed plaintext range of the key. *)
Definition in_range (pk : paillier.PaillierPublicKey.t) (x : Number) : Prop :=
  Z.abs (mantissa x) <= paillier.PaillierPublicKey.max_int pk.

(** An encrypted number holds a plaintext number: it is tagged with the
    public key, its exponent is the number's scale and its ciphertext
    carries the number's mantissa. *)
Definition holds (pk : paillier.PaillierPublicKey.t)
           (sk : paillier.PaillierPrivateKey.t)
           (c : paillier.EncryptedNumber.t) (x : Number) : Prop :=
  paillier.EncryptedNumber.public_key c = pk /\
  paillier.EncryptedNumber.exponent c = scale x /\
  paillier.carries sk (paillier.EncryptedNumber.ciphertext c) (mantissa x).

(** The exceptions that decoding a wire form can raise: those of
    [json.loads], of a subscript and of [int]. *)
Definition decoding_exn (e : exn) : Prop :=
  match e with
  | JSONDecodeError | KeyError _ | TypeError | ValueError => True
  | _ => False
  end.

(** The value of a field in the wire form of an entity. *)
Definition wire_field (text field : string) : option object :=
  match json.loads text with
  | Return (PyDict items) => builtins.dict_get items field
  | _ => None
  end.


(** ** Primality certificates and two concrete 512-bit key pairs *)

Module certificates.
Import bigint paillier.

(** Proth's test for [k * 2^m + 1] with base [a]. *)
Definition proth (k m : Z) : Z := k * 2 ^ m + 1.

Definition proth_test (k m a : Z) : bool :=
  (1 <=? m) && (0 <? k) && (k <? 2 ^ m)
  && (powmod a (k * 2 ^ (m - 1)) (proth k m) =? k * 2 ^ m).

Definition p1 : Z := proth (2 ^ 127 - 107) 129.
Definition q1 : Z := proth (2 ^ 127 - 365) 129.

Definition pk1 : PaillierPublicKey.t := PaillierPublicKey.make (p1 * q1).
Definition sk1 : PaillierPrivateKey.t := PaillierPrivateKey.make pk1 p1 q1.

End certificates.

(** ** Shapes of text and of objects used in the codec lemmas *)

Module shapes.
Import builtins.

Fixpoint all_chars (f : ascii -> bool) (s : string) : bool :=
  match s with
  | EmptyString => true
  | String c s' => f c && all_chars f s'
  end.

(** Characters that the encoder writes as themselves inside a literal. *)
Definition plain_char (c : ascii) : bool :=
  (32 <=? code c) && (code c <=? 126)
  && negb (Ascii.eqb c dquote) && negb (Ascii.eqb c "\").

(** What follows an integer literal must not extend it. *)
Definition ends_number (rest : string) : bool :=
  match rest with
  | EmptyString => true
  | String c _ =>
      negb (is_digit c || Ascii.eqb c "." || Ascii.eqb c "e" || Ascii.eqb c "E")
  end.

(** The values of the codec's wire forms: integers and plain strings. *)
Definition flat_value (v : object) : bool :=
  match v with
  | PyInt _ => true
  | PyStr s => all_chars plain_char s
  | _ => false
  end.

Definition flat_item (kv : string * object) : bool :=
  all_chars plain_char (fst kv) && flat_value (snd kv).

(** The text of one member of a dict, and the dict that reading a list of
    members builds. *)
Definition item_text (kv : string * object) : string :=
  (json.quote (fst kv) ++ ": " ++ json.dumps (snd kv))%string.

Definition set_items (items acc : list (string * object))
  : list (string * object) :=
  fold_left (fun a kv => dict_set a (fst kv) (snd kv)) items acc.

End shapes.

(** ** The exact sum of a list of plaintext numbers, in closed form *)



(* ================================================================== *)
(** * Part II. Lemmas and theorems *)
(* ================================================================== *)

(** ** Modular arithmetic *)

Module bigint_facts.
Import bigint.

Lemma powmod_pos_spec (a : Z) (e : positive) (m : Z) :
  powmod_pos a e m = a ^ Zpos e mod m.
Proof.
  induction e as [e IH | e IH |]; cbn [powmod_pos].
  - rewrite IH, Pos2Z.inj_xI.
    replace (2 * Z.pos e + 1) with (Z.pos e + Z.pos e + 1) by lia.
    rewrite !Z.pow_add_r, Z.pow_1_r by lia.
    now rewrite <- Zmult_mod, Zmult_mod_idemp_l.
  - rewrite IH, Pos2Z.inj_xO.
    replace (2 * Z.pos e) with (Z.pos e + Z.pos e) by lia.
    rewrite Z.pow_add_r by lia. now rewrite <- Zmult_mod.
  - now rewrite Z.pow_1_r.
Qed.

Lemma powmod_spec (a e m : Z) : powmod a e m = a ^ e mod m.
Proof.
  destruct e as [| e | e]; cbn [powmod].
  - reflexivity.
  - apply powmod_pos_spec.
  - now rewrite Z.pow_neg_r, Zmod_0_l by lia.
Qed.

Lemma powmod_range (a e m : Z) : 0 < m -> 0 <= powmod a e m < m.
Proof. intros Hm. rewrite powmod_spec. now apply Z.mod_pos_bound. Qed.

(** [(1 + k m)^e = 1 + e k m] modulo [m^2]. *)
Lemma binomial_mod_square (m k e : Z) :
  0 <= e -> (1 + k * m) ^ e mod (m * m) = (1 + e * k * m) mod (m * m).
Proof.
  intros He. pattern e. apply natlike_ind; [reflexivity | | exact He].
  clear e He. intros e He IH.
  rewrite Z.pow_succ_r by exact He.
  rewrite Zmult_mod, IH, <- Zmult_mod.
  replace ((1 + k * m) * (1 + e * k * m))
    with (1 + Z.succ e * k * m + (k * e * k) * (m * m)) by ring.
  now rewrite Z_mod_plus_full.
Qed.

(** A unit modulo [m] that is 1 modulo [m] to the power [m] is 1 modulo
    [m^2]. *)
Lemma pow_modulus_mod_square (m x : Z) :
  0 < m -> x mod m = 1 mod m -> x ^ m mod (m * m) = 1 mod (m * m).
Proof.
  intros Hm Hx.
  assert (Hx' : x = 1 + ((x - 1) / m) * m).
  { assert (H0 : (x - 1) mod m = 0).
    { rewrite Zminus_mod, Hx, <- Zminus_mod. now rewrite Z.sub_diag, Zmod_0_l. }
    pose proof (Z_div_mod_eq_full (x - 1) m). lia. }
  rewrite Hx', binomial_mod_square by lia.
  replace (1 + m * ((x - 1) / m) * m) with (1 + ((x - 1) / m) * (m * m)) by ring.
  now rewrite Z_mod_plus_full.
Qed.

End bigint_facts.

(** ** Proth's primality criterion *)

Module proth_facts.
Import bigint bigint_facts Znumtheory.

Lemma prime_divisor (n : Z) : 1 < n -> exists r, Z.prime r /\ (r | n).
Proof.
  intros Hn. assert (H0 : 0 <= n) by lia. revert Hn.
  pattern n. apply Z_lt_induction; [| exact H0]. clear n H0.
  intros n IH Hn.
  destruct (prime_dec n) as [Hp | Hc].
  - exists n. split; [now apply prime_alt | apply Z.divide_refl].
  - destruct (not_prime_divide n Hn Hc) as (d & Hd & Hdiv).
    destruct (IH d ltac:(lia) ltac:(lia)) as (r & Hr & Hrd).
    exists r. split; [assumption | now apply Z.divide_trans with d].
Qed.

Lemma pow_mod_one_mul (r a x t : Z) :
  1 < r -> 0 <= x -> 0 <= t -> a ^ x mod r = 1 -> a ^ (x * t) mod r = 1.
Proof.
  intros Hr Hx Ht H. rewrite Z.pow_mul_r, <- Z.mod_pow_l, H, Z.pow_1_l by lia.
  apply Z.mod_1_l. lia.
Qed.

Lemma pow_gcd_one (r a x y : Z) :
  1 < r -> 0 < x -> 0 < y ->
  a ^ x mod r = 1 -> a ^ y mod r = 1 -> a ^ Z.gcd x y mod r = 1.
Proof.
  intros Hr Hx Hy Hax Hay.
  destruct (Z.gcd_bezout x y _ eq_refl) as (u0 & v0 & Huv).
  pose proof (Z.gcd_nonneg x y) as Hg.
  set (t := Z.abs u0 + Z.abs v0).
  set (u := u0 + t * y). set (v := - v0 + t * x).
  assert (Hu : 0 <= u) by (unfold u, t; nia).
  assert (Hv : 0 <= v) by (unfold v, t; nia).
  assert (E : x * u = Z.gcd x y + y * v) by (unfold u, v; lia).
  pose proof (pow_mod_one_mul r a x u Hr ltac:(lia) Hu Hax) as H1.
  rewrite E, Z.pow_add_r, Zmult_mod in H1 by nia.
  rewrite (pow_mod_one_mul r a y v Hr ltac:(lia) Hv Hay) in H1.
  now rewrite Z.mul_1_r, Zmod_mod in H1.
Qed.

Lemma divide_two_power (m : Z) :
  0 <= m -> forall d k, 0 < d -> (d | k * 2 ^ m) ->
  (2 ^ m | d) \/ (1 <= m /\ (d | k * 2 ^ (m - 1))).
Proof.
  intros Hm. pattern m. apply natlike_ind; [| | exact Hm]; clear m Hm.
  - intros d k _ _. left. apply Z.divide_1_l.
  - intros m Hm IH d k Hd Hdiv.
    replace (Z.succ m - 1) with m by lia.
    rewrite Z.pow_succ_r in * by lia.
    destruct (Z.eq_dec (d mod 2) 0) as [Hev | Hodd].
    + apply Z.mod_divide in Hev; [| lia]. destruct Hev as [d' ->].
      assert (Hd' : (d' | k * 2 ^ m)).
      { destruct Hdiv as [c Hc]. exists c. nia. }
      destruct (IH d' k ltac:(lia) Hd') as [H | [H1 H2]].
      * left. destruct H as [c ->]. exists c. ring.
      * right. split; [lia |].
        replace m with (Z.succ (m - 1)) at 1 by lia.
        rewrite Z.pow_succ_r by lia.
        destruct H2 as [c Hc]. exists c. rewrite Z.mul_assoc, (Z.mul_comm k 2), <- Z.mul_assoc, Hc. ring.
    + right. split; [lia |].
      assert (Hg : Z.gcd d 2 = 1).
      { apply Z.bezout_1_gcd. exists 1, (- (d / 2)).
        pose proof (Z_div_mod_eq_full d 2).
        assert (d mod 2 = 1) by (pose proof (Z.mod_pos_bound d 2); lia). lia. }
      apply Z.gauss with 2; [| exact Hg].
      replace (2 * (k * 2 ^ m)) with (k * (2 * 2 ^ m)) by ring. exact Hdiv.
Qed.

(** Proth's criterion. *)
Theorem proth_prime (k m a : Z) :
  1 <= m -> 0 < k < 2 ^ m ->
  a ^ (k * 2 ^ (m - 1)) mod (k * 2 ^ m + 1) = k * 2 ^ m ->
  Z.prime (k * 2 ^ m + 1).
Proof.
  intros Hm Hk Ha. set (N := k * 2 ^ m + 1) in *.
  set (h := k * 2 ^ (m - 1)) in *.
  assert (H2m : 0 < 2 ^ (m - 1)) by (apply Z.pow_pos_nonneg; lia).
  assert (E2 : 2 ^ m = 2 * 2 ^ (m - 1)).
  { replace m with (Z.succ (m - 1)) at 1 by lia. now rewrite Z.pow_succ_r by lia. }
  assert (Hh : 0 < h) by (unfold h; nia).
  assert (HN : N = 2 * h + 1) by (unfold N, h; lia).
  (* every prime divisor of N is above 2^m *)
  assert (Hbig : forall r, Z.prime r -> (r | N) -> 2 ^ m < r).
  { intros r Hr Hrn. pose proof (Z.prime_ge_2 _ Hr) as Hr2.
    assert (Hr3 : r <> 2).
    { intros ->. destruct Hrn as [c Hc]. lia. }
    assert (Hm1 : a ^ h mod r = r - 1).
    { destruct Hrn as [c Hc].
      assert (Hk2 : k * 2 ^ m = c * r - 1) by (unfold N in Hc; lia).
      rewrite (Z_div_mod_eq_full (a ^ h) N), Ha, Hk2.
      replace (N * (a ^ h / N) + (c * r - 1))
        with (r - 1 + (c * (a ^ h / N) + c - 1) * r) by (rewrite Hc; ring).
      rewrite Z_mod_plus_full. apply Z.mod_small. lia. }
    assert (Hnz : a mod r <> 0).
    { intros H0. rewrite <- Z.mod_pow_l, H0, Z.pow_0_l, Zmod_0_l in Hm1 by lia. lia. }
    assert (H1 : a ^ (2 * h) mod r = 1).
    { replace (2 * h) with (h + h) by ring.
      rewrite Z.pow_add_r, Zmult_mod, Hm1 by lia.
      replace ((r - 1) * (r - 1)) with (1 + (r - 2) * r) by ring.
      rewrite Z_mod_plus_full. apply Z.mod_1_l. lia. }
    pose proof (Z.fermat_nz r a Hr Hnz) as HF.
    pose proof (pow_gcd_one r a (2 * h) (r - 1) ltac:(lia) ltac:(lia) ltac:(lia) H1 HF) as Hg.
    set (d := Z.gcd (2 * h) (r - 1)) in *.
    assert (Hd0 : 0 < d).
    { pose proof (Z.gcd_nonneg (2 * h) (r - 1)).
      assert (d <> 0) by (unfold d; rewrite Z.gcd_eq_0; lia). unfold d in *; lia. }
    assert (Hdh : (d | k * 2 ^ m)).
    { replace (k * 2 ^ m) with (2 * h) by (unfold h; rewrite E2; ring).
      apply Z.gcd_divide_l. }
    destruct (divide_two_power m ltac:(lia) d k Hd0 Hdh) as [Hdiv | [_ Hdiv]].
    - assert (Hr1 : (2 ^ m | r - 1)).
      { apply Z.divide_trans with d; [assumption | apply Z.gcd_divide_r]. }
      destruct Hr1 as [c Hc]. assert (0 < c) by nia. nia.
    - exfalso. destruct Hdiv as [c Hc]. fold h in Hc.
      assert (Hc0 : 0 <= c) by nia.
      pose proof (pow_mod_one_mul r a d c ltac:(lia) ltac:(lia) Hc0 Hg) as H.
      rewrite (Z.mul_comm d c), <- Hc, Hm1 in H. lia. }
  apply prime_alt.
  destruct (prime_dec N) as [Hp | Hc]; [assumption | exfalso].
  destruct (not_prime_divide N ltac:(lia) Hc) as (d & Hd & [e He]).
  assert (He1 : 1 < e < N) by nia.
  assert (Hsmall : exists s, 1 < s <= 2 ^ m /\ (s | N)).
  { destruct (Z_le_gt_dec d (2 ^ m)).
    - exists d. split; [lia | exists e; lia].
    - destruct (Z_le_gt_dec e (2 ^ m)).
      + exists e. split; [lia | exists d; lia].
      + exfalso. unfold N in He. nia. }
  destruct Hsmall as (s & Hs & Hsn).
  destruct (prime_divisor s ltac:(lia)) as (r & Hr & Hrs).
  pose proof (Hbig r Hr (Z.divide_trans _ _ _ Hrs Hsn)) as Hlt.
  apply Z.divide_pos_le in Hrs; lia.
Qed.

Lemma proth_test_sound (k m a : Z) :
  certificates.proth_test k m a = true -> Z.prime (certificates.proth k m).
Proof.
  unfold certificates.proth_test, certificates.proth.
  rewrite !andb_true_iff, powmod_spec.
  intros [[[Hm Hk1] Hk2] Ha].
  apply (proth_prime k m a); [lia | lia |].
  now apply Z.eqb_eq in Ha.
Qed.

Lemma p1_prime : Z.prime certificates.p1.
Proof. apply (proth_test_sound _ _ 5). vm_compute. reflexivity. Qed.

Lemma q1_prime : Z.prime certificates.q1.
Proof. apply (proth_test_sound _ _ 5). vm_compute. reflexivity. Qed.



Lemma keypair_intro (pk : paillier.PaillierPublicKey.t)
      (sk : paillier.PaillierPrivateKey.t) :
  paillier.PaillierPrivateKey.public_key sk = pk ->
  Z.prime (paillier.PaillierPrivateKey.p sk) ->
  Z.prime (paillier.PaillierPrivateKey.q sk) ->
  (paillier.PaillierPrivateKey.p sk =? paillier.PaillierPrivateKey.q sk) = false ->
  (paillier.PaillierPublicKey.n pk
   =? paillier.PaillierPrivateKey.p sk * paillier.PaillierPrivateKey.q sk) = true ->
  (Z.gcd (paillier.PaillierPublicKey.n pk) (paillier.PaillierPrivateKey.lambda sk)
   =? 1) = true ->
  paillier.keypair pk sk.
Proof.
  intros H1 H2 H3 H4 H5 H6. unfold paillier.keypair.
  apply Z.eqb_neq in H4. apply Z.eqb_eq in H5, H6. auto 10.
Qed.

Lemma key1_generated : paillier.generated 512 certificates.pk1 certificates.sk1.
Proof.
  split.
  - apply keypair_intro;
      [reflexivity | exact p1_prime | exact q1_prime
       | vm_compute; reflexivity ..].
  - vm_compute. reflexivity.
Qed.


End proth_facts.

(** ** The Paillier engine *)

Module paillier_facts.
Import bigint bigint_facts paillier.

Section Key.
Variable pk : PaillierPublicKey.t.
Variable sk : PaillierPrivateKey.t.
Hypothesis Hkey : keypair pk sk.

Let N := PaillierPublicKey.n pk.
Let lam := PaillierPrivateKey.lambda sk.

Lemma key_primes :
  Z.prime (PaillierPrivateKey.p sk) /\ Z.prime (PaillierPrivateKey.q sk) /\
  N = PaillierPrivateKey.p sk * PaillierPrivateKey.q sk.
Proof. destruct Hkey as (_ & Hp & Hq & _ & Hn & _). auto. Qed.

Lemma modulus_ge_4 : 4 <= N.
Proof.
  destruct key_primes as (Hp & Hq & ->).
  apply Z.prime_ge_2 in Hp, Hq. nia.
Qed.

Lemma lambda_pos : 0 < lam.
Proof.
  destruct key_primes as (Hp & Hq & _).
  apply Z.prime_ge_2 in Hp, Hq.
  pose proof (Z.lcm_nonneg (PaillierPrivateKey.p sk - 1)
                           (PaillierPrivateKey.q sk - 1)) as H0.
  assert (Hne : lam <> 0).
  { unfold lam, PaillierPrivateKey.lambda. rewrite Z.lcm_eq_0. lia. }
  unfold lam, PaillierPrivateKey.lambda in *. lia.
Qed.

Lemma lambda_coprime : Z.gcd lam N = 1.
Proof. destruct Hkey as (_ & _ & _ & _ & _ & H). now rewrite Z.gcd_comm. Qed.

(** Fermat's little theorem, lifted to an exponent that [p - 1] divides. *)
Lemma fermat_multiple (a r e : Z) :
  Z.prime a -> Z.gcd r a = 1 -> (a - 1 | e) -> 0 <= e -> r ^ e mod a = 1.
Proof.
  intros Ha Hr [k ->] He.
  pose proof (Z.prime_ge_2 _ Ha) as Ha2.
  assert (Hk : 0 <= k) by nia.
  assert (Hnz : r mod a <> 0).
  { intros H0. apply Z.mod_divide in H0; [| lia].
    assert (Hd : (a | Z.gcd r a)) by (apply Z.gcd_greatest; [assumption | apply Z.divide_refl]).
    rewrite Hr in Hd. apply Z.divide_1_r_nonneg in Hd; lia. }
  rewrite Z.mul_comm, Z.pow_mul_r by lia.
  rewrite <- Z.mod_pow_l, (Z.fermat_nz a r Ha Hnz), Z.pow_1_l by lia.
  apply Z.mod_1_l. lia.
Qed.

(** Carmichael's function at [n]: every unit to the power [lambda] is 1. *)
Lemma unit_pow_lambda (r : Z) : Z.gcd r N = 1 -> r ^ lam mod N = 1.
Proof.
  intros Hr.
  destruct Hkey as (_ & Hp & Hq & Hpq & Hn & _). fold N in Hn.
  pose proof (Z.prime_ge_2 _ Hp) as Hp2. pose proof (Z.prime_ge_2 _ Hq) as Hq2.
  pose proof lambda_pos as Hl.
  assert (Hcop : Z.coprime (PaillierPrivateKey.p sk) (PaillierPrivateKey.q sk)).
  { apply Z.coprime_prime_l; [assumption |].
    intros Hd. apply Hpq. now apply Z.divide_prime_prime. }
  assert (Hrp : Z.gcd r (PaillierPrivateKey.p sk) = 1).
  { apply Z.bezout_1_gcd.
    destruct (Z.gcd_bezout r N 1 Hr) as (u & v & Huv).
    exists u, (v * PaillierPrivateKey.q sk). rewrite Hn in Huv. lia. }
  assert (Hrq : Z.gcd r (PaillierPrivateKey.q sk) = 1).
  { apply Z.bezout_1_gcd.
    destruct (Z.gcd_bezout r N 1 Hr) as (u & v & Huv).
    exists u, (v * PaillierPrivateKey.p sk). rewrite Hn in Huv. lia. }
  assert (H1 : r ^ lam mod PaillierPrivateKey.p sk = 1 mod PaillierPrivateKey.p sk).
  { rewrite (Z.mod_1_l (PaillierPrivateKey.p sk)) by lia.
    apply fermat_multiple; try assumption; [apply Z.divide_lcm_l | lia]. }
  assert (H2 : r ^ lam mod PaillierPrivateKey.q sk = 1 mod PaillierPrivateKey.q sk).
  { rewrite (Z.mod_1_l (PaillierPrivateKey.q sk)) by lia.
    apply fermat_multiple; try assumption; [apply Z.divide_lcm_r | lia]. }
  rewrite Hn.
  rewrite (Z.combinecong_complete_coprime_nonneg_nonneg _ _ _ 1 1 Hcop H1 H2)
    by lia.
  rewrite <- (Z.combinecong_complete_coprime_nonneg_nonneg 1 _ _ 1 1 Hcop
                eq_refl eq_refl) by lia.
  apply Z.mod_1_l. nia.
Qed.


Let NN := PaillierPublicKey.nsquare pk.

Lemma nsquare_eq : NN = N * N.
Proof. reflexivity. Qed.

Lemma sk_public_key : PaillierPrivateKey.public_key sk = pk.
Proof. now destruct Hkey. Qed.

(** A unit modulo [n] is a unit modulo [n^2]. *)
Lemma coprime_nsquare (c : Z) : Z.gcd c N = 1 -> Z.gcd c NN = 1.
Proof. intros H. now apply Z.coprime_mul_r. Qed.

Lemma coprime_nsquare_inv (c : Z) : Z.gcd c NN = 1 -> Z.gcd c N = 1.
Proof.
  intros H. apply Z.bezout_1_gcd.
  destruct (Z.gcd_bezout c NN 1 H) as (u & v & Huv).
  exists u, (v * N). rewrite nsquare_eq in Huv. lia.
Qed.

(** The blinding part of a ciphertext vanishes under [lambda]. *)
Lemma blinding_pow_lambda (r : Z) :
  Z.gcd r N = 1 -> (r ^ N) ^ lam mod NN = 1 mod NN.
Proof.
  intros Hr. pose proof modulus_ge_4 as HN. pose proof lambda_pos as Hl.
  fold N in HN. fold lam in Hl.
  rewrite <- Z.pow_mul_r, Z.mul_comm, Z.pow_mul_r by lia.
  apply pow_modulus_mod_square; [lia |].
  rewrite (unit_pow_lambda r Hr). symmetry. apply Z.mod_1_l. lia.
Qed.

Lemma carries_unfold (c m : Z) :
  carries sk c m <->
  0 <= c < NN /\ Z.gcd c NN = 1 /\
  c ^ lam mod NN = (1 + m * lam * N) mod NN.
Proof. unfold carries. rewrite sk_public_key. reflexivity. Qed.

(** Only the plaintext modulo [n] matters. *)
Lemma carries_mod (c m : Z) : carries sk c (m mod N) <-> carries sk c m.
Proof.
  rewrite !carries_unfold.
  assert (E : (1 + m mod N * lam * N) mod NN = (1 + m * lam * N) mod NN).
  { rewrite (Z_div_mod_eq_full m N) at 2.
    replace (1 + (N * (m / N) + m mod N) * lam * N)
      with (1 + m mod N * lam * N + (m / N * lam) * (N * N)) by ring.
    now rewrite nsquare_eq, Z_mod_plus_full. }
  now rewrite E.
Qed.

(** Encryption establishes the invariant. *)
Lemma carries_raw_encrypt (m r : Z) :
  0 <= m -> Z.gcd r N = 1 -> carries sk (raw_encrypt pk m r) m.
Proof.
  intros Hm Hr. pose proof modulus_ge_4 as HN. pose proof lambda_pos as Hl.
  fold N in HN. fold lam in Hl.
  apply carries_unfold. unfold raw_encrypt. fold NN.
  rewrite !powmod_spec, <- Zmult_mod.
  unfold PaillierPublicKey.g. fold N.
  assert (HNN : 0 < NN) by (rewrite nsquare_eq; nia).
  split; [now apply Z.mod_pos_bound |]. split.
  - apply Z.coprime_mod_l_iff. apply coprime_nsquare.
    apply Z.coprime_mul_l.
    + apply Z.coprime_pow_l; [assumption |].
      apply Z.bezout_1_gcd. exists 1, (-1). ring.
    + apply Z.coprime_pow_l; [lia | assumption].
  - rewrite Z.mod_pow_l, Z.pow_mul_l, Zmult_mod.
    rewrite (blinding_pow_lambda r Hr).
    rewrite <- Z.pow_mul_r by lia.
    replace (N + 1) with (1 + 1 * N) by ring.
    rewrite nsquare_eq, binomial_mod_square by nia.
    rewrite <- Zmult_mod. f_equal. ring.
Qed.

(** Multiplying ciphertexts adds plaintexts. *)
Lemma carries_mul (c1 c2 m1 m2 : Z) :
  carries sk c1 m1 -> carries sk c2 m2 ->
  carries sk ((c1 * c2) mod NN) (m1 + m2).
Proof.
  rewrite !carries_unfold. intros (R1 & G1 & E1) (R2 & G2 & E2).
  assert (HNN : 0 < NN) by lia.
  split; [now apply Z.mod_pos_bound |]. split.
  - apply Z.coprime_mod_l_iff. now apply Z.coprime_mul_l.
  - rewrite Z.mod_pow_l, Z.pow_mul_l, Zmult_mod, E1, E2, <- Zmult_mod.
    replace ((1 + m1 * lam * N) * (1 + m2 * lam * N))
      with (1 + (m1 + m2) * lam * N + (m1 * lam * m2 * lam) * (N * N)) by ring.
    now rewrite nsquare_eq, Z_mod_plus_full.
Qed.

(** Raising a ciphertext to a power multiplies the plaintext. *)
Lemma carries_powmod (c m k : Z) :
  0 <= k -> carries sk c m -> carries sk (powmod c k NN) (m * k).
Proof.
  rewrite !carries_unfold. intros Hk (R & G & E).
  pose proof lambda_pos as Hl. fold lam in Hl.
  assert (HNN : 0 < NN) by lia.
  rewrite powmod_spec.
  split; [now apply Z.mod_pos_bound |]. split.
  - apply Z.coprime_mod_l_iff. now apply Z.coprime_pow_l.
  - rewrite Z.mod_pow_l, <- Z.pow_mul_r, Z.mul_comm, Z.pow_mul_r by lia.
    rewrite <- Z.mod_pow_l, E, Z.mod_pow_l.
    replace (1 + m * lam * N) with (1 + (m * lam) * N) by ring.
    rewrite nsquare_eq, binomial_mod_square by lia.
    f_equal. ring.
Qed.

(** Inverting a ciphertext negates the plaintext. *)
Lemma carries_invmod (c m : Z) :
  carries sk c m -> carries sk (Z.invmod c NN) (- m).
Proof.
  rewrite !carries_unfold. intros (R & G & E).
  pose proof lambda_pos as Hl. fold lam in Hl.
  pose proof modulus_ge_4 as HN. fold N in HN.
  assert (HNN : 2 <= NN) by (rewrite nsquare_eq; nia).
  split; [unfold Z.invmod; apply Z.mod_pos_bound; lia |]. split.
  - now apply Z.coprime_invmod.
  - pose proof (Z.invmod_coprime c NN HNN G) as Hinv.
    assert (H1 : (Z.invmod c NN ^ lam * (1 + m * lam * N)) mod NN = 1).
    { rewrite Zmult_mod, <- E, <- Zmult_mod, <- Z.pow_mul_l.
      rewrite <- Z.mod_pow_l, Hinv, Z.pow_1_l by lia.
      apply Z.mod_1_l. lia. }
    assert (H2 : ((1 + m * lam * N) * (1 + - m * lam * N)) mod NN = 1).
    { replace ((1 + m * lam * N) * (1 + - m * lam * N))
        with (1 + (- (m * lam * m * lam)) * (N * N)) by ring.
      rewrite nsquare_eq, Z_mod_plus_full. apply Z.mod_1_l. nia. }
    transitivity ((Z.invmod c NN ^ lam
                   * ((1 + m * lam * N) * (1 + - m * lam * N))) mod NN).
    + now rewrite (Zmult_mod (_ ^ _) (_ * _)), H2, Z.mul_1_r, Zmod_mod.
    + now rewrite Z.mul_assoc, Zmult_mod, H1, Z.mul_1_l, Zmod_mod.
Qed.

(** Decryption reads the plaintext off the invariant. *)
Lemma raw_decrypt_carries (c m : Z) :
  carries sk c m -> raw_decrypt sk c = m mod N.
Proof.
  rewrite carries_unfold. intros (R & G & E).
  pose proof lambda_pos as Hl. fold lam in Hl.
  pose proof modulus_ge_4 as HN. fold N in HN.
  unfold raw_decrypt. rewrite sk_public_key. fold N NN lam.
  rewrite powmod_spec, E.
  set (k := (m * lam) mod N).
  assert (Hk : 0 <= k < N) by (apply Z.mod_pos_bound; lia).
  assert (E1 : (1 + m * lam * N) mod NN = 1 + k * N).
  { rewrite (Z_div_mod_eq_full (m * lam) N). fold k.
    replace (1 + (N * (m * lam / N) + k) * N)
      with (1 + k * N + (m * lam / N) * (N * N)) by ring.
    rewrite nsquare_eq, Z_mod_plus_full. apply Z.mod_small. nia. }
  rewrite E1. unfold l_function.
  replace (1 + k * N - 1) with (k * N) by ring.
  rewrite Z_div_mult_full by lia.
  unfold PaillierPrivateKey.mu. rewrite sk_public_key. fold N lam.
  unfold k. rewrite Zmult_mod_idemp_l.
  replace (m * lam * Z.invmod lam N) with (m * (Z.invmod lam N * lam)) by ring.
  rewrite Zmult_mod, (Z.invmod_coprime lam N) by (lia || apply lambda_coprime).
  rewrite Z.mul_1_r. apply Zmod_mod.
Qed.

End Key.
End paillier_facts.

(** ** Text: decimal integers *)

Module text_facts.
Import builtins shapes.
Local Open Scope string_scope.
Local Open Scope Z_scope.

Lemma append_assoc (a b c : string) : (a ++ b) ++ c = a ++ (b ++ c).
Proof. induction a as [| x a IH]; cbn; [reflexivity | now rewrite IH]. Qed.

Lemma append_nil_r (a : string) : a ++ "" = a.
Proof. induction a as [| x a IH]; cbn; [reflexivity | now rewrite IH]. Qed.

Lemma length_append (a b : string) :
  String.length (a ++ b) = (String.length a + String.length b)%nat.
Proof. induction a as [| x a IH]; cbn; [reflexivity | now rewrite IH]. Qed.

Lemma all_chars_app (f : ascii -> bool) (a b : string) :
  all_chars f (a ++ b) = all_chars f a && all_chars f b.
Proof.
  induction a as [| x a IH]; cbn; [reflexivity |].
  now rewrite IH, andb_assoc.
Qed.

Lemma all_chars_impl (f g : ascii -> bool) (s : string) :
  (forall c, f c = true -> g c = true) ->
  all_chars f s = true -> all_chars g s = true.
Proof.
  intros Hfg. induction s as [| c s IH]; cbn; [reflexivity |].
  rewrite !andb_true_iff. intros [H1 H2]. auto.
Qed.

Lemma code_range (c : ascii) : 0 <= code c < 256.
Proof. unfold code. pose proof (nat_ascii_bounded c). lia. Qed.

Lemma code_inj (c d : ascii) : code c = code d -> c = d.
Proof.
  unfold code. intros H. apply Nat2Z.inj in H.
  rewrite <- (ascii_nat_embedding c), <- (ascii_nat_embedding d). now rewrite H.
Qed.

Lemma eqb_code (c d : ascii) : Ascii.eqb c d = (code c =? code d).
Proof.
  destruct (Ascii.eqb_spec c d) as [-> | Hne].
  - now rewrite Z.eqb_refl.
  - symmetry. apply Z.eqb_neq. intros H. now apply Hne, code_inj.
Qed.

Lemma code_digit_char (d : Z) : 0 <= d <= 9 -> code (digit_char d) = 48 + d.
Proof.
  intros Hd. unfold code, digit_char.
  rewrite nat_ascii_embedding by lia. lia.
Qed.

Lemma is_digit_digit_char (d : Z) : 0 <= d <= 9 -> is_digit (digit_char d) = true.
Proof.
  intros Hd. unfold is_digit. rewrite code_digit_char by exact Hd.
  apply andb_true_iff. split; apply Z.leb_le; lia.
Qed.

Lemma digit_value_digit_char (d : Z) :
  0 <= d <= 9 -> digit_value (digit_char d) = d.
Proof. intros Hd. unfold digit_value. rewrite code_digit_char by exact Hd. lia. Qed.

Lemma digits_S (fuel : nat) (i : Z) (acc : string) :
  digits (S fuel) i acc
  = if i <? 10 then String (digit_char (i mod 10)) acc
    else digits fuel (i / 10) (String (digit_char (i mod 10)) acc).
Proof. reflexivity. Qed.

Lemma digits_app (fuel : nat) (i : Z) (acc : string) :
  digits fuel i acc = digits fuel i "" ++ acc.
Proof.
  revert i acc. induction fuel as [| fuel IH]; intros i acc; cbn [digits].
  - reflexivity.
  - destruct (i <? 10); [reflexivity |].
    rewrite IH, (IH _ (String _ "")), append_assoc. reflexivity.
Qed.

Lemma digits_value_app (a b : string) (acc : Z) :
  json.digits_value (a ++ b) acc = json.digits_value b (json.digits_value a acc).
Proof. revert acc. induction a as [| c a IH]; intros acc; cbn; auto. Qed.

Lemma digits_all_digits (fuel : nat) (i : Z) :
  0 <= i -> all_chars is_digit (digits fuel i "") = true.
Proof.
  revert i. induction fuel as [| fuel IH]; intros i Hi; cbn [digits].
  - reflexivity.
  - assert (Hd : 0 <= i mod 10 <= 9) by (pose proof (Z.mod_pos_bound i 10); lia).
    destruct (i <? 10).
    + cbn. now rewrite is_digit_digit_char.
    + rewrite digits_app, all_chars_app, IH by (apply Z.div_pos; lia).
      cbn. now rewrite is_digit_digit_char.
Qed.

Lemma digits_value_digits (fuel : nat) (i : Z) :
  0 <= i < 10 ^ Z.of_nat fuel -> json.digits_value (digits fuel i "") 0 = i.
Proof.
  revert i. induction fuel as [| fuel IH]; intros i Hi; cbn [digits].
  - change (10 ^ Z.of_nat 0) with 1 in Hi. cbn [json.digits_value]. lia.
  - assert (Hd : 0 <= i mod 10 <= 9) by (pose proof (Z.mod_pos_bound i 10); lia).
    destruct (Z.ltb_spec i 10).
    + cbn [json.digits_value]. rewrite digit_value_digit_char by exact Hd.
      rewrite Z.mod_small by lia. lia.
    + rewrite digits_app, digits_value_app, IH.
      * cbn [json.digits_value]. rewrite digit_value_digit_char by exact Hd.
        pose proof (Z_div_mod_eq_full i 10). lia.
      * rewrite Nat2Z.inj_succ, Z.pow_succ_r in Hi by lia.
        split; [apply Z.div_pos; lia |].
        apply Z.div_lt_upper_bound; lia.
Qed.

(** The first digit of a positive integer is not zero. *)
Lemma digits_head (fuel : nat) (i : Z) :
  0 < i < 10 ^ Z.of_nat (S fuel) ->
  exists d ds, digits (S fuel) i "" = String (digit_char d) ds /\ 1 <= d <= 9.
Proof.
  revert i. induction fuel as [| fuel IH]; intros i Hi.
  - exists i, "". rewrite digits_S. change (10 ^ Z.of_nat 1) with 10 in Hi.
    rewrite Z.mod_small by lia. split; [| lia].
    now destruct (i <? 10).
  - rewrite digits_S. destruct (Z.ltb_spec i 10).
    + exists i, "". rewrite Z.mod_small by lia. split; [reflexivity | lia].
    + rewrite Nat2Z.inj_succ, Z.pow_succ_r in Hi by lia.
      destruct (IH (i / 10)) as (d & ds & E & Hd).
      { split; [apply Z.div_str_pos; lia | apply Z.div_lt_upper_bound; lia]. }
      exists d, (ds ++ String (digit_char (i mod 10)) "").
      rewrite digits_app, E. split; [reflexivity | exact Hd].
Qed.

Lemma fuel_enough (i : Z) :
  0 <= i -> i < 10 ^ Z.of_nat (S (Z.to_nat (Z.log2 i))).
Proof.
  intros Hi. rewrite Nat2Z.inj_succ, Z2Nat.id by apply Z.log2_nonneg.
  destruct (Z.eq_dec i 0) as [-> | Hne]; [cbn; lia |].
  destruct (Z.log2_spec i ltac:(lia)) as [_ Hlt].
  eapply Z.lt_le_trans; [exact Hlt |].
  apply Z.pow_le_mono_l. pose proof (Z.log2_nonneg i). lia.
Qed.

Lemma str_nonneg (i : Z) :
  0 <= i -> str i = digits (S (Z.to_nat (Z.log2 i))) i "".
Proof. intros Hi. unfold str. now destruct (Z.ltb_spec i 0); [lia |]. Qed.

Lemma str_neg (i : Z) :
  i < 0 -> str i = String "-" (digits (S (Z.to_nat (Z.log2 (- i)))) (- i) "").
Proof. intros Hi. unfold str. now destruct (Z.ltb_spec i 0); [| lia]. Qed.

(** The shape of [str i]: an optional minus sign, then a first digit that
    is zero only for 0, then digits; and they spell [i]. *)
Lemma str_shape (i : Z) :
  exists d ds,
    str i = (if i <? 0 then "-" else "") ++ String (digit_char d) ds /\
    0 <= d <= 9 /\ (d = 0 -> i = 0 /\ ds = "") /\
    all_chars is_digit ds = true /\
    json.digits_value ds d = Z.abs i.
Proof.
  assert (Hpos : forall j, 0 <= j -> exists d ds,
             digits (S (Z.to_nat (Z.log2 j))) j "" = String (digit_char d) ds /\
             0 <= d <= 9 /\ (d = 0 -> j = 0 /\ ds = "") /\
             all_chars is_digit ds = true /\ json.digits_value ds d = j).
  { intros j Hj. destruct (Z.eq_dec j 0) as [-> | Hne].
    - exists 0, "". repeat split; try reflexivity; lia.
    - destruct (digits_head (Z.to_nat (Z.log2 j)) j) as (d & ds & E & Hd).
      { split; [lia | now apply fuel_enough]. }
      exists d, ds. rewrite E. split; [reflexivity |]. split; [lia |].
      split; [lia |].
      pose proof (digits_all_digits (S (Z.to_nat (Z.log2 j))) j Hj) as Hall.
      pose proof (digits_value_digits (S (Z.to_nat (Z.log2 j))) j
                    (conj Hj (fuel_enough j Hj))) as Hval.
      rewrite E in Hall, Hval. cbn [all_chars json.digits_value] in Hall, Hval.
      apply andb_true_iff in Hall. destruct Hall as [_ Hall].
      rewrite digit_value_digit_char in Hval by lia.
      split; [exact Hall |]. now rewrite Z.mul_0_r, Z.add_0_l in Hval. }
  destruct (Z.ltb_spec i 0) as [Hneg | Hnn].
  - destruct (Hpos (- i) ltac:(lia)) as (d & ds & E & Hd & H0 & Hall & Hval).
    exists d, ds. rewrite (str_neg i Hneg), E.
    split; [reflexivity |]. split; [exact Hd |]. split; [| split; [exact Hall | lia]].
    intros ->. destruct (H0 eq_refl). lia.
  - destruct (Hpos i Hnn) as (d & ds & E & Hd & H0 & Hall & Hval).
    exists d, ds. rewrite (str_nonneg i Hnn), E.
    split; [reflexivity |]. split; [exact Hd |]. split; [| split; [exact Hall | lia]].
    intros ->. now destruct (H0 eq_refl).
Qed.

Lemma is_digit_code (c : ascii) : is_digit c = true <-> 48 <= code c <= 57.
Proof. unfold is_digit. rewrite andb_true_iff, !Z.leb_le. reflexivity. Qed.

Lemma is_digit_not_space (c : ascii) : is_digit c = true -> is_space c = false.
Proof.
  rewrite is_digit_code. intros H. unfold is_space.
  repeat (apply orb_false_iff; split);
    try (apply andb_false_iff; (left; apply Z.leb_gt; lia) || (right; apply Z.leb_gt; lia));
    apply Z.eqb_neq; lia.
Qed.

Lemma rstrip_no_space (s : string) :
  all_chars (fun c => negb (is_space c)) s = true -> rstrip s = s.
Proof.
  induction s as [| c s IH]; cbn [all_chars rstrip]; [reflexivity |].
  rewrite andb_true_iff, negb_true_iff. intros [Hc Hs].
  rewrite (IH Hs), Hc. now destruct s.
Qed.

Lemma strip_no_space (s : string) :
  all_chars (fun c => negb (is_space c)) s = true -> strip s = s.
Proof.
  intros H. unfold strip.
  assert (E : lstrip s = s).
  { destruct s as [| c s]; [reflexivity |]. cbn [all_chars] in H.
    apply andb_true_iff in H. destruct H as [Hc _].
    apply negb_true_iff in Hc. cbn [lstrip]. now rewrite Hc. }
  rewrite E. now apply rstrip_no_space.
Qed.

Lemma int_digits_all_digits (ds : string) (acc : Z) (b : bool) :
  all_chars is_digit ds = true -> (ds <> "" \/ b = true) ->
  int_digits ds acc b = Some (json.digits_value ds acc).
Proof.
  revert acc b. induction ds as [| c ds IH]; intros acc b Hall Hne.
  - destruct Hne as [Hne | ->]; [congruence | reflexivity].
  - cbn [all_chars] in Hall. apply andb_true_iff in Hall.
    destruct Hall as [Hc Hds]. cbn [int_digits json.digits_value].
    rewrite Hc. apply IH; auto.
Qed.

(** [int(str(i)) == i]. *)
Lemma int_of_str_str (i : Z) : int_of_str (str i) = Return i.
Proof.
  destruct (str_shape i) as (d & ds & E & Hd & _ & Hall & Hval).
  assert (Hdc : is_digit (digit_char d) = true) by now apply is_digit_digit_char.
  assert (Hns : all_chars (fun c => negb (is_space c)) (String (digit_char d) ds) = true).
  { apply (all_chars_impl is_digit).
    - intros c Hc. now rewrite is_digit_not_space.
    - cbn [all_chars]. now rewrite Hdc, Hall. }
  assert (Hint : int_digits (String (digit_char d) ds) 0 false = Some (Z.abs i)).
  { rewrite int_digits_all_digits.
    - cbn [json.digits_value]. rewrite digit_value_digit_char by lia.
      now rewrite Z.mul_0_r, Z.add_0_l, Hval.
    - cbn [all_chars]. now rewrite Hdc, Hall.
    - left. discriminate. }
  assert (Hcode : code (digit_char d) = 48 + d) by now apply code_digit_char.
  unfold int_of_str. rewrite E. destruct (Z.ltb_spec i 0) as [Hneg | Hnn].
  - cbn [append]. rewrite strip_no_space.
    + rewrite Ascii.eqb_refl, Hint. cbn [bind]. f_equal. lia.
    + cbn [all_chars] in Hns |- *. rewrite Hns. reflexivity.
  - cbn [append]. rewrite strip_no_space by exact Hns.
    rewrite !eqb_code, Hcode.
    change (code "-") with 45. change (code "+") with 43.
    destruct (Z.eqb_spec (48 + d) 45); [lia |].
    destruct (Z.eqb_spec (48 + d) 43); [lia |].
    rewrite Hint. f_equal. lia.
Qed.

End text_facts.

(** ** The [json] codec on flat objects *)

Module json_facts.
Import builtins shapes text_facts.
Local Open Scope string_scope.
Local Open Scope Z_scope.

Lemma plain_char_spec (c : ascii) :
  plain_char c = true ->
  32 <= code c <= 126 /\ code c <> 34 /\ code c <> 92.
Proof.
  unfold plain_char. rewrite !andb_true_iff, !negb_true_iff, !eqb_code, !Z.leb_le.
  change (code dquote) with 34. change (code "\") with 92.
  intros [[[H1 H2] H3] H4]. apply Z.eqb_neq in H3, H4. lia.
Qed.

Lemma is_digit_plain (c : ascii) : is_digit c = true -> plain_char c = true.
Proof.
  rewrite is_digit_code. intros H. unfold plain_char.
  rewrite !eqb_code. change (code dquote) with 34. change (code "\") with 92.
  rewrite !andb_true_iff, !negb_true_iff, !Z.leb_le.
  repeat split; try lia; apply Z.eqb_neq; lia.
Qed.

Lemma escape_char_plain (c : ascii) :
  plain_char c = true -> json.escape_char c = String c "".
Proof.
  intros H. apply plain_char_spec in H. destruct H as (H1 & H2 & H3).
  unfold json.escape_char. rewrite !eqb_code.
  change (code dquote) with 34. change (code "\") with 92.
  repeat match goal with
         | |- context [?a =? ?b] => destruct (Z.eqb_spec a b); [lia |]
         end.
  destruct (Z.ltb_spec (code c) 32); [lia |].
  destruct (Z.ltb_spec 126 (code c)); [lia |]. reflexivity.
Qed.

Lemma escape_plain (s : string) :
  all_chars plain_char s = true -> json.escape s = s.
Proof.
  induction s as [| c s IH]; cbn [all_chars json.escape]; [reflexivity |].
  rewrite andb_true_iff. intros [Hc Hs].
  now rewrite escape_char_plain, IH by assumption.
Qed.

Lemma quote_plain (s : string) :
  all_chars plain_char s = true ->
  json.quote s = String dquote (s ++ String dquote "").
Proof. intros H. unfold json.quote. now rewrite escape_plain. Qed.

Lemma scan_string_plain (fuel : nat) (s rest : string) :
  all_chars plain_char s = true -> (String.length s < fuel)%nat ->
  json.scan_string fuel (s ++ String dquote rest) = Some (s, rest).
Proof.
  revert fuel. induction s as [| c s IH]; intros fuel Hall Hlen.
  - destruct fuel as [| fuel]; [cbn in Hlen; lia |]. reflexivity.
  - destruct fuel as [| fuel]; [cbn in Hlen; lia |].
    cbn [all_chars] in Hall. apply andb_true_iff in Hall. destruct Hall as [Hc Hs].
    pose proof (plain_char_spec c Hc) as (H1 & H2 & H3).
    cbn [append json.scan_string]. rewrite !eqb_code.
    change (code dquote) with 34. change (code "\") with 92.
    destruct (Z.eqb_spec (code c) 34); [lia |].
    destruct (Z.eqb_spec (code c) 92); [lia |].
    destruct (Z.ltb_spec (code c) 32); [lia |].
    rewrite IH; [reflexivity | exact Hs | cbn in Hlen; lia].
Qed.

Lemma ends_number_spec (rest : string) :
  ends_number rest = true ->
  json.starts_fraction_or_exponent rest = false /\
  json.span_digits rest = ("", rest).
Proof.
  destruct rest as [| c rest]; [now split |].
  cbn [ends_number json.starts_fraction_or_exponent json.span_digits].
  rewrite negb_true_iff, !orb_false_iff. intros [[[H1 H2] H3] H4].
  rewrite H1, H2, H3, H4. now split.
Qed.

Lemma span_digits_app (ds rest : string) :
  all_chars is_digit ds = true -> ends_number rest = true ->
  json.span_digits (ds ++ rest) = (ds, rest).
Proof.
  intros Hall Hrest. induction ds as [| c ds IH].
  - now apply ends_number_spec.
  - cbn [all_chars] in Hall. apply andb_true_iff in Hall. destruct Hall as [Hc Hds].
    cbn [append json.span_digits]. now rewrite Hc, (IH Hds).
Qed.

Lemma scan_unsigned_digits (d : Z) (ds rest : string) :
  0 <= d <= 9 -> (d = 0 -> ds = "") ->
  all_chars is_digit ds = true -> ends_number rest = true ->
  json.scan_unsigned (String (digit_char d) ds ++ rest)
  = Some (json.digits_value ds d, rest).
Proof.
  intros Hd H0 Hall Hrest.
  cbn [append json.scan_unsigned]. rewrite eqb_code, code_digit_char by exact Hd.
  change (code "0") with 48.
  destruct (Z.eqb_spec (48 + d) 48) as [E | Hne].
  - assert (d = 0) by lia. subst d. rewrite (H0 eq_refl). cbn [append].
    now rewrite (proj1 (ends_number_spec rest Hrest)).
  - rewrite is_digit_digit_char, span_digits_app by assumption.
    rewrite (proj1 (ends_number_spec rest Hrest)).
    now rewrite digit_value_digit_char.
Qed.

(** Reading back a written integer. *)
Lemma scan_number_str (i : Z) (rest : string) :
  ends_number rest = true ->
  json.scan_number (str i ++ rest) = Some (PyInt i, rest).
Proof.
  intros Hrest.
  destruct (str_shape i) as (d & ds & E & Hd & H0 & Hall & Hval).
  rewrite E. destruct (Z.ltb_spec i 0) as [Hneg | Hnn].
  - cbn [append json.scan_number]. rewrite Ascii.eqb_refl.
    change (String (digit_char d) (ds ++ rest))
      with (String (digit_char d) ds ++ rest).
    rewrite scan_unsigned_digits; try assumption; [| intros Hz; apply H0, Hz].
    rewrite Hval. now replace (- Z.abs i) with i by lia.
  - change ("" ++ String (digit_char d) ds) with (String (digit_char d) ds).
    cbn [append json.scan_number]. rewrite eqb_code, code_digit_char by exact Hd.
    change (code "-") with 45. destruct (Z.eqb_spec (48 + d) 45); [lia |].
    change (String (digit_char d) (ds ++ rest))
      with (String (digit_char d) ds ++ rest).
    rewrite scan_unsigned_digits; try assumption; [| intros Hz; apply H0, Hz].
    rewrite Hval. now replace (Z.abs i) with i by lia.
Qed.

(** The first character of a written integer. *)
Lemma str_head (i : Z) :
  exists c s, str i = String c s /\ (is_digit c = true \/ c = "-"%char).
Proof.
  destruct (str_shape i) as (d & ds & E & Hd & _).
  rewrite E. destruct (i <? 0).
  - exists "-"%char, (String (digit_char d) ds). split; [reflexivity | now right].
  - exists (digit_char d), ds. split; [reflexivity |].
    left. now apply is_digit_digit_char.
Qed.

Lemma parse_value_number (fuel : nat) (c : ascii) (s : string) :
  is_digit c = true \/ c = "-"%char ->
  json.parse_value (S fuel) (String c s) = json.scan_number (String c s).
Proof.
  intros [Hc | ->]; [| reflexivity].
  apply is_digit_code in Hc. cbn [json.parse_value]. rewrite !eqb_code.
  change (code dquote) with 34.
  repeat match goal with
         | |- context [code c =? code ?x] =>
             let v := eval vm_compute in (code x) in
             change (code x) with v; destruct (Z.eqb_spec (code c) v); [lia |]
         end.
  destruct (Z.eqb_spec (code c) 34); [lia |]. reflexivity.
Qed.

Lemma skip_ws_head (c : ascii) (s : string) :
  json.is_ws c = false -> json.skip_ws (String c s) = String c s.
Proof. intros H. cbn [json.skip_ws]. now rewrite H. Qed.

Lemma is_ws_number_start (c : ascii) :
  is_digit c = true \/ c = "-"%char -> json.is_ws c = false.
Proof.
  intros [Hc | ->]; [| reflexivity].
  apply is_digit_code in Hc. unfold json.is_ws.
  repeat (apply orb_false_iff; split); apply Z.eqb_neq; lia.
Qed.

Lemma dumps_dict (items : list (string * object)) :
  json.dumps (PyDict items)
  = "{" ++ json.join ", " (map item_text items) ++ "}".
Proof. reflexivity. Qed.

(** A written flat value is read back, whatever follows it (as long as it
    cannot extend an integer literal). *)
Lemma parse_value_flat (fuel : nat) (v : object) (rest : string) :
  flat_value v = true -> ends_number rest = true ->
  json.parse_value (S fuel) (json.dumps v ++ rest) = Some (v, rest).
Proof.
  intros Hv Hrest. destruct v as [| b | i | s | l | d]; try discriminate Hv.
  - cbn [json.dumps]. destruct (str_head i) as (c & s & E & Hc).
    pose proof (scan_number_str i rest Hrest) as Hscan.
    rewrite E in *. cbn [append] in *.
    now rewrite parse_value_number.
  - cbn [flat_value] in Hv. cbn [json.dumps]. rewrite quote_plain by exact Hv.
    cbn [append]. rewrite append_assoc. cbn [append].
    change (json.parse_value (S fuel) (String dquote (s ++ String dquote rest)))
      with (match json.scan_string (String.length (s ++ String dquote rest))
                    (s ++ String dquote rest) with
            | Some (body, rest') => Some (PyStr body, rest')
            | None => None
            end).
    rewrite scan_string_plain; [reflexivity | exact Hv |].
    rewrite length_append. cbn [String.length]. lia.
Qed.

Lemma dumps_flat_head (v : object) (rest : string) :
  flat_value v = true ->
  json.skip_ws (json.dumps v ++ rest) = json.dumps v ++ rest.
Proof.
  intros Hv. destruct v as [| b | i | s | l | d]; try discriminate Hv.
  - cbn [json.dumps]. destruct (str_head i) as (c & s & E & Hc).
    rewrite E. cbn [append]. apply skip_ws_head. now apply is_ws_number_start.
  - reflexivity.
Qed.

(** The members of a written flat dict are read back in order. *)
Lemma parse_members_flat (items : list (string * object)) :
  forall (acc : list (string * object)) (fuel : nat) (rest : string),
    items <> [] -> forallb flat_item items = true ->
    (List.length items < fuel)%nat ->
    json.parse_members fuel
      (json.join ", " (map item_text items) ++ String "}" rest) acc
    = Some (set_items items acc, rest).
Proof.
  induction items as [| [k v] items IH]; intros acc fuel rest Hne Hflat Hfuel;
    [congruence |].
  cbn [forallb] in Hflat. apply andb_true_iff in Hflat.
  destruct Hflat as [Hkv Hflat]. unfold flat_item in Hkv. cbn [fst snd] in Hkv.
  apply andb_true_iff in Hkv. destruct Hkv as [Hk Hv].
  destruct fuel as [| [| fuel]]; [cbn in Hfuel; lia | cbn in Hfuel; lia |].
  (* the text after the value of this member *)
  set (tail := match items with
               | [] => String "}" rest
               | _ :: _ => ", " ++ json.join ", " (map item_text items)
                                ++ String "}" rest
               end).
  assert (Etext : json.join ", " (map item_text ((k, v) :: items))
                    ++ String "}" rest
                  = String dquote (k ++ String dquote
                                     (String ":" (String " " (json.dumps v ++ tail))))).
  { unfold tail. destruct items as [| kv' items'].
    - change (json.join ", " (map item_text [(k, v)])) with (item_text (k, v)).
      unfold item_text. cbn [fst snd]. rewrite quote_plain by exact Hk.
      cbn [append]. repeat (rewrite ?append_assoc; cbn [append]). reflexivity.
    - change (json.join ", " (map item_text ((k, v) :: kv' :: items')))
        with (item_text (k, v) ++ ", "
                ++ json.join ", " (map item_text (kv' :: items'))).
      generalize (json.join ", " (map item_text (kv' :: items'))). intros J.
      unfold item_text. cbn [fst snd]. rewrite quote_plain by exact Hk.
      cbn [append]. repeat (rewrite ?append_assoc; cbn [append]). reflexivity. }
  rewrite Etext.
  assert (Htail : ends_number tail = true) by (unfold tail; now destruct items).
  change (json.parse_members (S (S fuel)) (String dquote ?s) acc)
    with (match json.scan_string (String.length s) s with
          | Some (key, r) =>
              match json.skip_ws r with
              | String ":" r' =>
                  match json.parse_value (S fuel) (json.skip_ws r') with
                  | Some (v0, r'') =>
                      match json.skip_ws r'' with
                      | String "," r3 =>
                          json.parse_members (S fuel) (json.skip_ws r3)
                                             (dict_set acc key v0)
                      | String "}" r3 => Some (dict_set acc key v0, r3)
                      | _ => None
                      end
                  | None => None
                  end
              | _ => None
              end
          | None => None
          end).
  rewrite scan_string_plain;
    [| exact Hk | rewrite length_append; cbn [String.length]; lia].
  rewrite (skip_ws_head ":") by reflexivity. lazy iota beta.
  change (json.skip_ws (String " " (json.dumps v ++ tail)))
    with (json.skip_ws (json.dumps v ++ tail)).
  rewrite dumps_flat_head, parse_value_flat by assumption.
  unfold tail. destruct items as [| kv' items'].
  - rewrite (skip_ws_head "}") by reflexivity. reflexivity.
  - change (json.skip_ws (", " ++ ?t)) with (String "," (String " " t)).
    lazy iota beta.
    change (json.skip_ws (String " " ?t)) with (json.skip_ws t).
    assert (Hhead : forall t, json.skip_ws (json.join ", " (map item_text (kv' :: items')) ++ t)
                   = json.join ", " (map item_text (kv' :: items')) ++ t).
    { intros t. cbn [map].
      assert (Hj : exists r, json.join ", " (item_text kv' :: map item_text items')
                             = item_text kv' ++ r).
      { destruct (map item_text items') as [| y l].
        - exists "". cbn [json.join]. now rewrite append_nil_r.
        - exists (", " ++ json.join ", " (y :: l)). reflexivity. }
      destruct Hj as [r ->]. unfold item_text, json.quote. cbn [append].
      now apply skip_ws_head. }
    rewrite Hhead. apply IH; [discriminate | exact Hflat | cbn in Hfuel |- *; lia].
Qed.

Lemma dict_get_app (a b : list (string * object)) (k : string) :
  dict_get (a ++ b)%list k
  = match dict_get a k with Some v => Some v | None => dict_get b k end.
Proof.
  induction a as [| [k' v'] a IH]; cbn [dict_get app]; [reflexivity |].
  now destruct (String.eqb k' k).
Qed.

Lemma dict_set_fresh (acc : list (string * object)) (k : string) (v : object) :
  dict_get acc k = None -> dict_set acc k v = (acc ++ [(k, v)])%list.
Proof.
  induction acc as [| [k' v'] acc IH]; cbn [dict_get dict_set app]; [reflexivity |].
  destruct (String.eqb k' k); [discriminate |]. intros H. now rewrite IH.
Qed.

Lemma dict_get_none (items : list (string * object)) (k : string) :
  ~ In k (map fst items) -> dict_get items k = None.
Proof.
  induction items as [| [k' v'] items IH]; cbn [dict_get map fst In]; [reflexivity |].
  intros H. destruct (String.eqb_spec k' k) as [-> | Hne]; [tauto |].
  apply IH. tauto.
Qed.

Lemma set_items_fresh (items : list (string * object)) :
  forall acc, NoDup (map fst (acc ++ items)%list) ->
              set_items items acc = (acc ++ items)%list.
Proof.
  induction items as [| [k v] items IH]; intros acc Hnd; unfold set_items in *;
    cbn [fold_left fst snd].
  - now rewrite app_nil_r.
  - assert (Hk : dict_get acc k = None).
    { apply dict_get_none. rewrite map_app in Hnd. cbn [map fst] in Hnd.
      apply NoDup_remove_2 in Hnd. intros Hin. apply Hnd, in_or_app. now left. }
    rewrite (dict_set_fresh acc k v Hk), IH.
    + now rewrite <- app_assoc.
    + now rewrite <- app_assoc.
Qed.

Lemma join_length (items : list (string * object)) :
  (List.length items <= String.length (json.join ", " (map item_text items)))%nat.
Proof.
  induction items as [| kv items IH]; [cbn; lia |].
  cbn [map]. destruct items as [| kv' items'].
  - unfold item_text, json.quote. cbn. lia.
  - change (json.join ", " (item_text kv :: map item_text (kv' :: items')))
      with (item_text kv ++ ", " ++ json.join ", " (map item_text (kv' :: items'))).
    rewrite !length_append. cbn [List.length String.length] in IH |- *. lia.
Qed.

(** Round trip of the codec on a non-empty flat dict with distinct keys. *)
Lemma loads_dumps_flat (items : list (string * object)) :
  items <> [] -> forallb flat_item items = true -> NoDup (map fst items) ->
  json.loads (json.dumps (PyDict items)) = Return (PyDict items).
Proof.
  intros Hne Hflat Hnd. rewrite dumps_dict. unfold json.loads.
  set (J := json.join ", " (map item_text items)).
  change ("{" ++ J ++ "}") with (String "{" (J ++ String "}" "")).
  rewrite (skip_ws_head "{") by reflexivity.
  assert (HJ : exists s, J = String dquote s).
  { unfold J. destruct items as [| kv items]; [congruence |]. cbn [map].
    destruct (map item_text items); unfold item_text, json.quote; cbn [json.join append];
      eexists; reflexivity. }
  destruct HJ as [s Es].
  assert (Hpm : json.parse_members (String.length (String "{" (J ++ String "}" "")))
                  (J ++ String "}" "") [] = Some (items, "")).
  { unfold J. rewrite parse_members_flat; try assumption.
    - now rewrite set_items_fresh.
    - pose proof (join_length items). fold J in H |- *.
      cbn [String.length]. rewrite length_append. cbn [String.length]. lia. }
  change (json.parse_value (S (String.length (String "{" (J ++ String "}" ""))))
            (String "{" (J ++ String "}" "")))
    with (match json.skip_ws (J ++ String "}" "") with
          | String "}" rest => Some (PyDict [], rest)
          | s1 =>
              match json.parse_members
                      (String.length (String "{" (J ++ String "}" ""))) s1 [] with
              | Some (items0, rest) => Some (PyDict items0, rest)
              | None => None
              end
          end).
  assert (Hsk : json.skip_ws (J ++ String "}" "") = J ++ String "}" "").
  { rewrite Es. reflexivity. }
  rewrite Hsk. rewrite Es in Hpm |- *. cbn [append] in Hpm |- *.
  unfold dquote in Hpm |- *. lazy iota beta. rewrite Hpm. reflexivity.
Qed.

End json_facts.

(** ** The wire forms of keys and ciphertexts *)

Module codec_facts.
Import builtins shapes text_facts json_facts paillier.
Local Open Scope string_scope.
Local Open Scope Z_scope.

Lemma str_plain (i : Z) : all_chars plain_char (str i) = true.
Proof.
  destruct (str_shape i) as (d & ds & E & Hd & _ & Hall & _).
  rewrite E, all_chars_app. apply andb_true_iff. split.
  - now destruct (i <? 0).
  - cbn [all_chars]. apply andb_true_iff. split.
    + now apply is_digit_plain, is_digit_digit_char.
    + apply (all_chars_impl is_digit); [apply is_digit_plain | exact Hall].
Qed.

Lemma loads_public_key (n : Z) :
  json.loads (json.dumps (PyDict [("n", PyInt n)]))
  = Return (PyDict [("n", PyInt n)]).
Proof.
  apply loads_dumps_flat; [discriminate | reflexivity |].
  repeat constructor; cbn; intuition congruence.
Qed.

Lemma loads_private_key (p q : Z) :
  json.loads (json.dumps (PyDict [("p", PyInt p); ("q", PyInt q)]))
  = Return (PyDict [("p", PyInt p); ("q", PyInt q)]).
Proof.
  apply loads_dumps_flat; [discriminate | reflexivity |].
  repeat constructor; cbn; intuition congruence.
Qed.

Lemma loads_encrypted (c e : Z) :
  json.loads (json.dumps (PyDict [("ciphertext", PyStr (str c));
                                  ("exponent", PyInt e)]))
  = Return (PyDict [("ciphertext", PyStr (str c)); ("exponent", PyInt e)]).
Proof.
  apply loads_dumps_flat; [discriminate | |].
  - cbn [forallb]. unfold flat_item. cbn [flat_value fst snd].
    rewrite str_plain. reflexivity.
  - repeat constructor; cbn; intuition congruence.
Qed.

(** Decoding an encoded public key gives the key back. *)
Lemma deserialize_serialize_public_key (pk : PaillierPublicKey.t) :
  HomomorphicEncryption.deserialize_public_key
    (HomomorphicEncryption.serialize_public_key pk) = Return pk.
Proof.
  unfold HomomorphicEncryption.deserialize_public_key,
    HomomorphicEncryption.serialize_public_key.
  rewrite loads_public_key. now destruct pk.
Qed.

(** Decoding an encoded private key gives the key back, under the public
    key it belongs to. *)
Lemma deserialize_serialize_private_key (sk : PaillierPrivateKey.t) :
  PaillierPrivateKey.p sk * PaillierPrivateKey.q sk
  = PaillierPublicKey.n (PaillierPrivateKey.public_key sk) ->
  PaillierPrivateKey.p sk <> PaillierPrivateKey.q sk ->
  HomomorphicEncryption.deserialize_private_key
    (HomomorphicEncryption.serialize_private_key sk)
    (PaillierPrivateKey.public_key sk) = Return sk.
Proof.
  intros Hn Hpq.
  unfold HomomorphicEncryption.deserialize_private_key,
    HomomorphicEncryption.serialize_private_key.
  rewrite loads_private_key. cbn [bind].
  change (getitem (PyDict [("p", PyInt (PaillierPrivateKey.p sk));
                           ("q", PyInt (PaillierPrivateKey.q sk))]) "p")
    with (Return (PyInt (PaillierPrivateKey.p sk))).
  change (getitem (PyDict [("p", PyInt (PaillierPrivateKey.p sk));
                           ("q", PyInt (PaillierPrivateKey.q sk))]) "q")
    with (Return (PyInt (PaillierPrivateKey.q sk))).
  cbn [bind int]. unfold PaillierPrivateKey.init.
  apply Z.eqb_eq in Hn. apply Z.eqb_neq in Hpq. rewrite Hn, Hpq.
  now destruct sk.
Qed.

(** Rebuilding a ciphertext from its wire form gives its fields back, under
    the public key handed in. *)
Lemma load_dump_encrypted (pk : PaillierPublicKey.t) (x : EncryptedNumber.t) :
  HomomorphicEncryption.load_encrypted
    pk (HomomorphicEncryption.dump_encrypted x)
  = Return (EncryptedNumber.make pk (EncryptedNumber.ciphertext x)
                                 (EncryptedNumber.exponent x)).
Proof.
  unfold HomomorphicEncryption.load_encrypted,
    HomomorphicEncryption.dump_encrypted.
  rewrite loads_encrypted. cbn [bind].
  change (getitem (PyDict [("ciphertext", PyStr (str (EncryptedNumber.ciphertext x)));
                           ("exponent", PyInt (EncryptedNumber.exponent x))])
                  "ciphertext")
    with (Return (PyStr (str (EncryptedNumber.ciphertext x)))).
  change (getitem (PyDict [("ciphertext", PyStr (str (EncryptedNumber.ciphertext x)));
                           ("exponent", PyInt (EncryptedNumber.exponent x))])
                  "exponent")
    with (Return (PyInt (EncryptedNumber.exponent x))).
  cbn [bind int]. rewrite int_of_str_str. reflexivity.
Qed.

End codec_facts.

(** ** Encrypted numbers and the plaintexts they hold *)

Module engine_facts.
Import bigint bigint_facts paillier paillier_facts.

Section Key.
Variable pk : PaillierPublicKey.t.
Variable sk : PaillierPrivateKey.t.
Hypothesis Hkey : keypair pk sk.

Let N := PaillierPublicKey.n pk.
Let NN := PaillierPublicKey.nsquare pk.

Lemma encode_in_range (x : Number) :
  in_range pk x ->
  EncodedNumber.encode pk x
  = Return (EncodedNumber.make pk (mantissa x mod N) (scale x)).
Proof.
  unfold in_range, EncodedNumber.encode. intros H.
  now destruct (Z.gtb_spec (Z.abs (mantissa x)) (PaillierPublicKey.max_int pk));
    [lia |].
Qed.

Lemma decode_in_range (m e : Z) :
  Z.abs m <= PaillierPublicKey.max_int pk ->
  EncodedNumber.decode (EncodedNumber.make pk (m mod N) e)
  = Return {| mantissa := m; scale := e |}.
Proof.
  pose proof (modulus_ge_4 pk sk Hkey) as HN. fold N in HN.
  unfold PaillierPublicKey.max_int. fold N. intros Hm.
  assert (H3 : N / 3 * 3 <= N) by (pose proof (Z_div_mod_eq_full N 3);
                                   pose proof (Z.mod_pos_bound N 3); lia).
  unfold EncodedNumber.decode.
  cbn [EncodedNumber.public_key EncodedNumber.encoding EncodedNumber.exponent].
  unfold PaillierPublicKey.max_int. fold N.
  destruct (Z_le_gt_dec 0 m) as [Hpos | Hneg].
  - rewrite Z.mod_small by lia.
    destruct (Z.geb_spec m N); [lia |].
    now destruct (Z.leb_spec m (N / 3 - 1)); [| lia].
  - assert (E : m mod N = m + N).
    { symmetry. apply Z.mod_unique with (-1); lia. }
    rewrite E.
    destruct (Z.geb_spec (m + N) N); [lia |].
    destruct (Z.leb_spec (m + N) (N / 3 - 1)); [lia |].
    destruct (Z.geb_spec (m + N) (N - (N / 3 - 1))); [| lia].
    do 2 f_equal. lia.
Qed.

(** Encryption of a number in range gives a ciphertext that holds it. *)
Lemma encrypt_holds (x : Number) (r : Z) :
  in_range pk x -> blinding pk r ->
  exists c, encrypt pk x r = Return c /\ holds pk sk c x.
Proof.
  intros Hx [Hr Hg]. pose proof (modulus_ge_4 pk sk Hkey) as HN. fold N in HN.
  unfold encrypt. rewrite encode_in_range by exact Hx. cbn [bind].
  eexists. split; [reflexivity |].
  cbn [EncodedNumber.encoding EncodedNumber.exponent].
  split; [reflexivity | split; [reflexivity |]].
  cbn [EncryptedNumber.ciphertext].
  apply (carries_mod pk sk Hkey), (carries_raw_encrypt pk sk Hkey).
  - apply Z.mod_pos_bound. lia.
  - exact Hg.
Qed.

(** Decryption of a ciphertext that holds a number in range gives the
    number. *)
Lemma decrypt_holds (c : EncryptedNumber.t) (x : Number) :
  holds pk sk c x -> in_range pk x -> decrypt sk c = Return x.
Proof.
  intros (Hpk & He & Hc) Hx. unfold decrypt.
  pose proof (sk_public_key pk sk Hkey) as Hsk.
  destruct (key_primes pk sk Hkey) as (_ & _ & Hn). fold N in Hn.
  rewrite Hsk. fold N NN.
  rewrite (proj2 (Z.eqb_eq _ _) (eq_sym Hn)). cbn [negb].
  pose proof (proj1 (carries_unfold pk sk Hkey _ _) Hc) as (_ & Hg & _).
  fold NN in Hg. rewrite (proj2 (Z.eqb_eq _ _) Hg). cbn [negb].
  rewrite (raw_decrypt_carries pk sk Hkey _ _ Hc). fold N.
  rewrite decode_in_range by exact Hx. rewrite He. now destruct x.
Qed.


Lemma holds_decrease (c : EncryptedNumber.t) (x : Number) (e : Z) :
  holds pk sk c x -> e <= scale x ->
  holds pk sk (EncryptedNumber.decrease_exponent_to c e)
        {| mantissa := mantissa x * BASE ^ (scale x - e); scale := e |}.
Proof.
  intros (Hpk & He & Hc) Hle. unfold EncryptedNumber.decrease_exponent_to.
  split; [exact Hpk | split; [reflexivity |]].
  cbn [EncryptedNumber.public_key EncryptedNumber.exponent
       EncryptedNumber.ciphertext mantissa scale].
  rewrite Hpk, He. apply (carries_powmod pk sk Hkey); [| exact Hc].
  apply Z.pow_nonneg. unfold BASE. lia.
Qed.

(** Homomorphic addition adds the plaintexts exactly. *)
Lemma add_holds (a b : EncryptedNumber.t) (x y : Number) :
  holds pk sk a x -> holds pk sk b y ->
  exists c, EncryptedNumber.add a b = Return c
            /\ holds pk sk c (number_add x y).
Proof.
  intros Ha Hb.
  pose proof Ha as (Hpa & Hea & Hca). pose proof Hb as (Hpb & Heb & Hcb).
  unfold EncryptedNumber.add. rewrite Hpa, Hpb.
  unfold PaillierPublicKey.eqb. rewrite Z.eqb_refl. cbn [negb].
  eexists. split; [reflexivity |].
  unfold number_add. rewrite Hea, Heb.
  destruct (Z.gtb_spec (scale x) (scale y)) as [Hgt | Hle].
  - destruct (Z.ltb_spec (scale x) (scale y)); [lia |].
    rewrite Z.min_r by lia.
    pose proof (holds_decrease a x (scale y) Ha ltac:(lia)) as (H1 & H2 & H3).
    cbn [mantissa scale] in H2, H3.
    split; [reflexivity | split; [exact H2 |]].
    cbn [EncryptedNumber.ciphertext mantissa].
    rewrite Z.sub_diag, Z.pow_0_r, Z.mul_1_r.
    apply (carries_mul pk sk Hkey); assumption.
  - destruct (Z.ltb_spec (scale x) (scale y)) as [Hlt | Hge].
    + rewrite Z.min_l by lia.
      pose proof (holds_decrease b y (scale x) Hb ltac:(lia)) as (H1 & H2 & H3).
      cbn [mantissa scale] in H2, H3.
      split; [reflexivity | split; [exact Hea |]].
      cbn [EncryptedNumber.ciphertext mantissa].
      rewrite Z.sub_diag, Z.pow_0_r, Z.mul_1_r.
      apply (carries_mul pk sk Hkey); assumption.
    + assert (E : scale x = scale y) by lia.
      rewrite E, Z.min_id, Z.sub_diag, Z.pow_0_r, !Z.mul_1_r.
      split; [reflexivity | split; [cbn [EncryptedNumber.exponent scale]; lia |]].
      cbn [EncryptedNumber.ciphertext mantissa].
      apply (carries_mul pk sk Hkey); assumption.
Qed.

(** Homomorphic scalar multiplication multiplies the plaintexts exactly. *)
Lemma mul_holds (a : EncryptedNumber.t) (x k : Number) :
  holds pk sk a x -> in_range pk k ->
  exists c, EncryptedNumber.mul a k = Return c
            /\ holds pk sk c (number_mul x k).
Proof.
  intros (Hpa & Hea & Hca) Hk. unfold EncryptedNumber.mul, in_range in *.
  rewrite Hpa. fold NN.
  destruct (Z.gtb_spec (Z.abs (mantissa k)) (PaillierPublicKey.max_int pk));
    [lia |].
  pose proof (carries_powmod pk sk Hkey _ _ (Z.abs (mantissa k))
                (Z.abs_nonneg _) Hca) as Hpow. fold NN in Hpow.
  destruct (Z.ltb_spec (mantissa k) 0) as [Hneg | Hpos].
  - pose proof (proj1 (carries_unfold pk sk Hkey _ _) Hpow) as (_ & Hg & _).
    fold NN in Hg. unfold invert. rewrite (proj2 (Z.eqb_eq _ _) Hg).
    cbn [bind]. eexists. split; [reflexivity |].
    split; [reflexivity | split];
      cbn [EncryptedNumber.public_key EncryptedNumber.exponent
           EncryptedNumber.ciphertext number_mul mantissa scale].
    + now rewrite Hea.
    + replace (mantissa x * mantissa k)
        with (- (mantissa x * Z.abs (mantissa k))) by nia.
      now apply (carries_invmod pk sk Hkey).
  - cbn [bind]. eexists. split; [reflexivity |].
    split; [reflexivity | split];
      cbn [EncryptedNumber.public_key EncryptedNumber.exponent
           EncryptedNumber.ciphertext number_mul mantissa scale].
    + now rewrite Hea.
    + replace (mantissa x * mantissa k)
        with (mantissa x * Z.abs (mantissa k)) by nia.
      exact Hpow.
Qed.

End Key.
End engine_facts.

(** ** Exact values *)

Module number_facts.

Lemma base_nonzero : ~ (inject_Z BASE == 0)%Q.
Proof. discriminate. Qed.




(** [number_mul] is the product of the values. *)
Lemma value_number_mul (x k : Number) :
  (value (number_mul x k) == value x * value k)%Q.
Proof.
  unfold number_mul, value. cbn [mantissa scale].
  rewrite inject_Z_mult, (Qpower_plus _ _ _ base_nonzero). ring.
Qed.

Lemma value_of_int (i : Z) : (value (of_int i) == inject_Z i)%Q.
Proof. unfold value, of_int. cbn [mantissa scale Qpower]. ring. Qed.

End number_facts.

(** ** The wrapper on ciphertexts that hold plaintexts *)

Module wrapper_facts.
Import paillier paillier_facts engine_facts codec_facts.

Section Key.
Variable pk : PaillierPublicKey.t.
Variable sk : PaillierPrivateKey.t.
Hypothesis Hkey : keypair pk sk.

Lemma encrypt_number_holds (x : Number) (r : Z) :
  in_range pk x -> blinding pk r ->
  exists c, HomomorphicEncryption.encrypt_number pk x r
            = Return (HomomorphicEncryption.dump_encrypted c)
            /\ holds pk sk c x.
Proof.
  intros Hx Hr. destruct (encrypt_holds pk sk Hkey x r Hx Hr) as (c & E & Hc).
  exists c. unfold HomomorphicEncryption.encrypt_number. now rewrite E.
Qed.

Lemma load_dump_holds (c : EncryptedNumber.t) (x : Number) :
  holds pk sk c x ->
  HomomorphicEncryption.load_encrypted
    pk (HomomorphicEncryption.dump_encrypted c) = Return c.
Proof.
  intros (Hpk & _). rewrite load_dump_encrypted. destruct c. cbn in *.
  now subst.
Qed.

Lemma decrypt_number_holds (c : EncryptedNumber.t) (x : Number) :
  holds pk sk c x -> in_range pk x ->
  HomomorphicEncryption.decrypt_number
    sk (HomomorphicEncryption.dump_encrypted c) = Return x.
Proof.
  intros Hc Hx. unfold HomomorphicEncryption.decrypt_number.
  rewrite (sk_public_key pk sk Hkey), (load_dump_holds c x Hc). cbn [bind].
  now apply (decrypt_holds pk sk Hkey).
Qed.


Lemma add_remaining_holds (cs : list EncryptedNumber.t) (xs : list Number) :
  Forall2 (holds pk sk) cs xs ->
  forall c0 x0, holds pk sk c0 x0 ->
  exists c, HomomorphicEncryption.add_remaining
              pk c0 (map HomomorphicEncryption.dump_encrypted cs) = Return c
            /\ holds pk sk c (number_sum x0 xs).
Proof.
  induction 1 as [| c x cs xs Hc Hcs IH]; intros c0 x0 H0.
  - exists c0. now split.
  - cbn [map HomomorphicEncryption.add_remaining].
    rewrite (load_dump_holds c x Hc). cbn [bind].
    destruct (add_holds pk sk Hkey c0 c x0 x H0 Hc) as (c1 & E1 & H1).
    rewrite E1. cbn [bind].
    destruct (IH c1 (number_add x0 x) H1) as (c2 & E2 & H2).
    exists c2. split; [exact E2 | exact H2].
Qed.

(** Adding the wire forms of ciphertexts gives the wire form of a
    ciphertext that holds the exact sum. *)
Lemma add_encrypted_numbers_holds (c0 : EncryptedNumber.t) (x0 : Number)
      (cs : list EncryptedNumber.t) (xs : list Number) :
  holds pk sk c0 x0 -> Forall2 (holds pk sk) cs xs ->
  exists c, HomomorphicEncryption.add_encrypted_numbers
              pk (map HomomorphicEncryption.dump_encrypted (c0 :: cs))
            = Return (HomomorphicEncryption.dump_encrypted c)
            /\ holds pk sk c (number_sum x0 xs).
Proof.
  intros H0 Hcs. unfold HomomorphicEncryption.add_encrypted_numbers.
  cbn [map builtins.list_getitem nth_error bind tl].
  rewrite (load_dump_holds c0 x0 H0). cbn [bind].
  destruct (add_remaining_holds cs xs Hcs c0 x0 H0) as (c & E & Hc).
  rewrite E. cbn [bind]. now exists c.
Qed.

(** Multiplying the wire form of a ciphertext by a scalar gives the wire
    form of a ciphertext that holds the exact product. *)
Lemma multiply_holds (c0 : EncryptedNumber.t) (x k : Number) :
  holds pk sk c0 x -> in_range pk k ->
  exists c, HomomorphicEncryption.multiply_encrypted_by_scalar
              pk (HomomorphicEncryption.dump_encrypted c0) k
            = Return (HomomorphicEncryption.dump_encrypted c)
            /\ holds pk sk c (number_mul x k).
Proof.
  intros H0 Hk. unfold HomomorphicEncryption.multiply_encrypted_by_scalar.
  rewrite (load_dump_holds c0 x H0). cbn [bind].
  destruct (mul_holds pk sk Hkey c0 x k H0 Hk) as (c & E & Hc).
  rewrite E. cbn [bind]. now exists c.
Qed.

End Key.
End wrapper_facts.

(** ** Which exceptions the wrapper can raise *)

Module error_facts.
Import builtins paillier.
Local Open Scope string_scope.
Local Open Scope Z_scope.

Lemma loads_raises (s : string) (e : exn) :
  json.loads s = Raise e -> e = JSONDecodeError.
Proof.
  unfold json.loads. destruct (json.parse_value _ _) as [[v rest] |].
  - destruct (json.skip_ws rest); intros H; now inversion H.
  - intros H. now inversion H.
Qed.

Lemma getitem_raises (x : object) (key : string) (e : exn) :
  getitem x key = Raise e -> e = KeyError key \/ e = TypeError.
Proof.
  destruct x; cbn [getitem]; try (intros H; inversion H; now right).
  destruct (dict_get items key); intros H; inversion H. now left.
Qed.

Lemma int_of_str_raises (s : string) (e : exn) :
  int_of_str s = Raise e -> e = ValueError.
Proof.
  unfold int_of_str. destruct (strip s) as [| c t]; [intros H; now inversion H |].
  destruct (Ascii.eqb c "-").
  - destruct (int_digits t 0 false); cbn [bind]; intros H; now inversion H.
  - destruct (Ascii.eqb c "+").
    + destruct (int_digits t 0 false); intros H; now inversion H.
    + destruct (int_digits (String c t) 0 false); intros H; now inversion H.
Qed.

Lemma int_raises (x : object) (e : exn) :
  int x = Raise e -> e = ValueError \/ e = TypeError.
Proof.
  destruct x; cbn [int]; try (intros H; inversion H; now right).
  intros H. left. now apply int_of_str_raises with s.
Qed.

Lemma as_exponent_raises (x : object) (e : exn) :
  HomomorphicEncryption.as_exponent x = Raise e -> e = TypeError.
Proof. destruct x; cbn; intros H; now inversion H. Qed.

Ltac bind_cases H :=
  repeat match type of H with
         | bind ?m _ = Raise _ =>
             let E := fresh "E" in
             destruct m eqn:E; cbn [bind] in H
         end.

Ltac decoding_exn_tac :=
  repeat match goal with
         | H : json.loads _ = Raise _ |- _ => apply loads_raises in H; subst
         | H : getitem _ _ = Raise _ |- _ =>
             apply getitem_raises in H; destruct H; subst
         | H : int _ = Raise _ |- _ => apply int_raises in H; destruct H; subst
         | H : HomomorphicEncryption.as_exponent _ = Raise _ |- _ =>
             apply as_exponent_raises in H; subst
         | H : Raise _ = Raise _ |- _ => inversion H; subst; clear H
         | H : Return _ = Raise _ |- _ => discriminate H
         end;
  try exact I.

Lemma deserialize_public_key_raises (s : string) (e : exn) :
  HomomorphicEncryption.deserialize_public_key s = Raise e -> decoding_exn e.
Proof.
  unfold HomomorphicEncryption.deserialize_public_key. intros H.
  bind_cases H; decoding_exn_tac.
Qed.


Lemma load_encrypted_raises (pk : PaillierPublicKey.t) (s : string) (e : exn) :
  HomomorphicEncryption.load_encrypted pk s = Raise e -> decoding_exn e.
Proof.
  unfold HomomorphicEncryption.load_encrypted. intros H.
  bind_cases H; decoding_exn_tac.
Qed.

Lemma load_encrypted_public_key (pk : PaillierPublicKey.t) (s : string)
      (c : EncryptedNumber.t) :
  HomomorphicEncryption.load_encrypted pk s = Return c ->
  EncryptedNumber.public_key c = pk.
Proof.
  unfold HomomorphicEncryption.load_encrypted. intros H.
  repeat match type of H with
         | bind ?m _ = Return _ =>
             destruct m; cbn [bind] in H; [| discriminate H]
         end.
  now inversion H.
Qed.

(** Operands tagged with the same key pass the key check of [add]. *)
Lemma add_same_key (a b : EncryptedNumber.t) :
  EncryptedNumber.public_key a = EncryptedNumber.public_key b ->
  exists c, EncryptedNumber.add a b = Return c
            /\ EncryptedNumber.public_key c = EncryptedNumber.public_key a.
Proof.
  intros E. unfold EncryptedNumber.add, PaillierPublicKey.eqb.
  rewrite E, Z.eqb_refl. cbn [negb]. eexists. split; reflexivity.
Qed.

Lemma add_remaining_raises (pk : PaillierPublicKey.t) (rest : list string) :
  forall (c : EncryptedNumber.t) (e : exn),
    EncryptedNumber.public_key c = pk ->
    HomomorphicEncryption.add_remaining pk c rest = Raise e -> decoding_exn e.
Proof.
  induction rest as [| s rest IH]; intros c e Hc H;
    cbn [HomomorphicEncryption.add_remaining] in H; [discriminate H |].
  destruct (HomomorphicEncryption.load_encrypted pk s) as [c' | e'] eqn:El;
    cbn [bind] in H.
  - pose proof (load_encrypted_public_key pk s c' El) as Hc'.
    destruct (add_same_key c c' ltac:(congruence)) as (c2 & E2 & Hc2).
    rewrite E2 in H. cbn [bind] in H.
    apply (IH c2 e); [congruence | exact H].
  - injection H as <-. now apply load_encrypted_raises in El.
Qed.

(** [add_encrypted_numbers] fails only on an empty list or on text it
    cannot decode. *)
Lemma add_encrypted_numbers_raises (pk : PaillierPublicKey.t)
      (nums : list string) (e : exn) :
  HomomorphicEncryption.add_encrypted_numbers pk nums = Raise e ->
  e = IndexError \/ decoding_exn e.
Proof.
  unfold HomomorphicEncryption.add_encrypted_numbers. intros H.
  destruct nums as [| s rest]; cbn [list_getitem nth_error bind tl] in H.
  - left. now inversion H.
  - right.
    destruct (HomomorphicEncryption.load_encrypted pk s) as [c | e'] eqn:El;
      cbn [bind] in H.
    + pose proof (load_encrypted_public_key pk s c El) as Hc.
      destruct (HomomorphicEncryption.add_remaining pk c rest) as [c' | e']
        eqn:Er; cbn [bind] in H; [discriminate H |].
      injection H as <-. now apply (add_remaining_raises pk rest c).
    + injection H as <-. now apply load_encrypted_raises in El.
Qed.

(** [multiply_encrypted_by_scalar] fails on text it cannot decode, on a
    scalar out of range and on a ciphertext that has no inverse. *)
Lemma multiply_raises (pk : PaillierPublicKey.t) (s : string) (k : Number)
      (e : exn) :
  HomomorphicEncryption.multiply_encrypted_by_scalar pk s k = Raise e ->
  decoding_exn e \/ e = EncodingOverflow \/ e = ZeroDivisionError.
Proof.
  unfold HomomorphicEncryption.multiply_encrypted_by_scalar. intros H.
  destruct (HomomorphicEncryption.load_encrypted pk s) as [c | e'] eqn:El;
    cbn [bind] in H.
  - right. unfold EncryptedNumber.mul in H.
    destruct (_ >? _); cbn [bind] in H; [left; now inversion H |].
    destruct (_ <? _); cbn [bind] in H.
    + unfold bigint.invert in H. destruct (_ =? _); cbn [bind] in H;
        [discriminate H | right; now inversion H].
    + discriminate H.
  - left. injection H as <-. now apply load_encrypted_raises in El.
Qed.

End error_facts.

(** ** Keys of 512 bits and binary64 plaintexts *)

Module key512_facts.
Import paillier.

Lemma generated_keypair (bits : Z) (pk : PaillierPublicKey.t)
      (sk : PaillierPrivateKey.t) :
  generated bits pk sk -> keypair pk sk.
Proof. now intros [H _]. Qed.

Lemma generated_max_int (pk : PaillierPublicKey.t) (sk : PaillierPrivateKey.t) :
  generated 512 pk sk -> 2 ^ 509 <= PaillierPublicKey.max_int pk.
Proof.
  intros [Hk Hlog].
  pose proof (paillier_facts.modulus_ge_4 pk sk Hk) as HN.
  destruct (Z.log2_spec (PaillierPublicKey.n pk) ltac:(lia)) as [Hlo _].
  rewrite Hlog in Hlo. change (512 - 1) with 511 in Hlo.
  unfold PaillierPublicKey.max_int.
  assert (H3 : 2 ^ 509 + 1 <= PaillierPublicKey.n pk / 3).
  { apply Z.div_le_lower_bound; [lia |].
    change (2 ^ 511) with (4 * 2 ^ 509) in Hlo.
    assert (1 <= 2 ^ 509) by (apply Z.pow_le_mono_r with (b := 0); lia).
    assert (3 <= 2 ^ 509) by (change 3 with (2 ^ 2 - 1);
                              assert (2 ^ 2 <= 2 ^ 509)
                                by (apply Z.pow_le_mono_r; lia); lia).
    lia. }
  lia.
Qed.

(** A binary64 plaintext is within the signed range of a 512-bit key. *)
Lemma float_in_range (pk : PaillierPublicKey.t) (sk : PaillierPrivateKey.t)
      (x : Number) :
  generated 512 pk sk -> is_float x -> in_range pk x.
Proof.
  intros Hg Hx. pose proof (generated_max_int pk sk Hg) as Hm.
  unfold is_float, in_range in *.
  assert (2 ^ 57 <= 2 ^ 509) by (apply Z.pow_le_mono_r; lia). lia.
Qed.

(** So is the product of two binary64 plaintexts. *)
Lemma float_product_in_range (pk : PaillierPublicKey.t)
      (sk : PaillierPrivateKey.t) (x k : Number) :
  generated 512 pk sk -> is_float x -> is_float k ->
  in_range pk (number_mul x k).
Proof.
  intros Hg Hx Hk. pose proof (generated_max_int pk sk Hg) as Hm.
  unfold is_float, in_range, number_mul in *. cbn [mantissa].
  rewrite Z.abs_mul.
  assert (H114 : 2 ^ 57 * 2 ^ 57 <= 2 ^ 509).
  { rewrite <- Z.pow_add_r by lia. apply Z.pow_le_mono_r; lia. }
  pose proof (Z.abs_nonneg (mantissa x)). pose proof (Z.abs_nonneg (mantissa k)).
  assert (Z.abs (mantissa x) * Z.abs (mantissa k) <= 2 ^ 57 * 2 ^ 57) by nia.
  lia.
Qed.

Lemma small_int_is_float (i : Z) : Z.abs i < 2 ^ 57 -> is_float (of_int i).
Proof. now unfold is_float, of_int. Qed.

End key512_facts.

(* ================================================================== *)
(** * The claims of the specification *)
(* ================================================================== *)

Import builtins paillier certificates.

(** ** Cipher and homomorphic operations (C1, C2, C3) *)

(** C2. Round trip: for every number [x] of the supported range (its
    mantissa within the signed plaintext range of the key), every freshly
    generated key pair and every blinding factor, decrypting the encryption
    of [x] returns [x], exactly. *)
Theorem encrypt_decrypt_round_trip
        (pk : PaillierPublicKey.t) (sk : PaillierPrivateKey.t)
        (x : Number) (r : Z) :
  HomomorphicEncryption.generate_keypair pk sk ->
  blinding pk r ->
  in_range pk x ->
  (s <- HomomorphicEncryption.encrypt_number pk x r ;;
   HomomorphicEncryption.decrypt_number sk s) = Return x.
Proof.
  intros Hg Hr Hx. pose proof (key512_facts.generated_keypair _ _ _ Hg) as Hk.
  destruct (wrapper_facts.encrypt_number_holds pk sk Hk x r Hx Hr)
    as (c & E & Hc).
  rewrite E. cbn [bind].
  now apply (wrapper_facts.decrypt_number_holds pk sk Hk).
Qed.

(** The float 1.0, as the encoder scales it, under the first certified key. *)
Lemma encrypt_decrypt_round_trip_witness :
  (s <- HomomorphicEncryption.encrypt_number
          pk1 {| mantissa := 2 ^ 52; scale := -13 |} 2 ;;
   HomomorphicEncryption.decrypt_number sk1 s)
  = Return {| mantissa := 2 ^ 52; scale := -13 |}.
Proof.
  apply encrypt_decrypt_round_trip.
  - exact proth_facts.key1_generated.
  - split; [split |]; vm_compute; reflexivity.
  - unfold in_range. vm_compute. discriminate.
Defined.

(** C3. Scalar multiplication: for every binary64 plaintext [a], every
    binary64 scalar [k], every freshly generated key pair and every blinding
    factor, decrypting the product of the encryption of [a] by [k] returns a
    number whose value is exactly [a * k]. *)
Theorem scalar_multiplication_homomorphism
        (pk : PaillierPublicKey.t) (sk : PaillierPrivateKey.t)
        (a k : Number) (r : Z) :
  HomomorphicEncryption.generate_keypair pk sk ->
  blinding pk r ->
  is_float a -> is_float k ->
  exists y,
    (ea <- HomomorphicEncryption.encrypt_number pk a r ;;
     s <- HomomorphicEncryption.multiply_encrypted_by_scalar pk ea k ;;
     HomomorphicEncryption.decrypt_number sk s) = Return y
    /\ (value y == value a * value k)%Q.
Proof.
  intros Hg Hr Ha Hk0. pose proof (key512_facts.generated_keypair _ _ _ Hg) as Hk.
  pose proof (key512_facts.float_in_range pk sk a Hg Ha) as Hra.
  pose proof (key512_facts.float_in_range pk sk k Hg Hk0) as Hrk.
  pose proof (key512_facts.float_product_in_range pk sk a k Hg Ha Hk0) as Hrp.
  destruct (wrapper_facts.encrypt_number_holds pk sk Hk a r Hra Hr)
    as (c & E & Hc).
  destruct (wrapper_facts.multiply_holds pk sk Hk c a k Hc Hrk) as (c' & E' & Hc').
  exists (number_mul a k). split.
  - rewrite E. cbn [bind]. rewrite E'. cbn [bind].
    now apply (wrapper_facts.decrypt_number_holds pk sk Hk).
  - apply number_facts.value_number_mul.
Qed.

(** The scenario of the specification: 5 times 3. *)
Lemma scalar_multiplication_homomorphism_witness :
  exists y,
    (ea <- HomomorphicEncryption.encrypt_number pk1 (of_int 5) 2 ;;
     s <- HomomorphicEncryption.multiply_encrypted_by_scalar pk1 ea (of_int 3) ;;
     HomomorphicEncryption.decrypt_number sk1 s) = Return y
    /\ (value y == value (of_int 5) * value (of_int 3))%Q.
Proof.
  apply scalar_multiplication_homomorphism.
  - exact proth_facts.key1_generated.
  - split; [split |]; vm_compute; reflexivity.
  - vm_compute. reflexivity.
  - vm_compute. reflexivity.
Defined.




(** ** Key isolation and operands (C4, C5) *)



(** C5, as the code has it.  On an empty sequence the addition fails with
    [IndexError], raised by [encrypted_nums[0]]; through [/compute] with
    operation "add" or "sum" (in any letter case) and a public key that
    decodes, the caller sees status 500 with that cause. *)
Theorem add_empty_raises_index_error
        (request : models.ComputeRequest) (pk : PaillierPublicKey.t) :
  HomomorphicEncryption.deserialize_public_key (models.public_key request)
  = Return pk ->
  models.encrypted_numbers request = [] ->
  lower (models.operation request) = "add"%string
  \/ lower (models.operation request) = "sum"%string ->
  HomomorphicEncryption.add_encrypted_numbers
    pk (models.encrypted_numbers request) = Raise IndexError
  /\ routes.compute_on_encrypted request
     = Raise (HTTPException 500 (Failed "Computation failed: " IndexError)).
Proof.
  intros Hpk Hnil Hop. rewrite Hnil. split; [reflexivity |].
  unfold routes.compute_on_encrypted. rewrite Hpk, Hnil. cbn [bind].
  destruct Hop as [-> | ->]; reflexivity.
Qed.

Lemma add_empty_raises_index_error_witness :
  HomomorphicEncryption.add_encrypted_numbers pk1 [] = Raise IndexError
  /\ routes.compute_on_encrypted
       {| models.encrypted_numbers := [];
          models.public_key := HomomorphicEncryption.serialize_public_key pk1;
          models.operation := "SUM";
          models.multiplier := None |}
     = Raise (HTTPException 500 (Failed "Computation failed: " IndexError)).
Proof.
  apply (add_empty_raises_index_error
           {| models.encrypted_numbers := [];
              models.public_key := HomomorphicEncryption.serialize_public_key pk1;
              models.operation := "SUM";
              models.multiplier := None |} pk1).
  - apply codec_facts.deserialize_serialize_public_key.
  - reflexivity.
  - right. reflexivity.
Defined.

(** C5, as stated, fails: the exception is [IndexError], not
    [EmptyOperandError]. *)
Lemma add_empty_is_not_empty_operand_error :
  HomomorphicEncryption.add_encrypted_numbers pk1 [] = Raise IndexError
  /\ HomomorphicEncryption.add_encrypted_numbers pk1 []
     <> Raise EmptyOperandError.
Proof. split; [reflexivity | discriminate]. Qed.


(** ** Codec (C6, C7, C8) *)

Local Open Scope string_scope.

(** C6. Codec round trip: decoding the encoded form of a public key, of a
    private key (whose primes are distinct and multiply to the modulus of
    its public key, as every private key object has them) and of an
    encrypted number gives the entity back, field for field. *)
Theorem codec_round_trip
        (pk : PaillierPublicKey.t) (sk : PaillierPrivateKey.t)
        (x : EncryptedNumber.t) :
  PaillierPrivateKey.p sk * PaillierPrivateKey.q sk
  = PaillierPublicKey.n (PaillierPrivateKey.public_key sk) ->
  PaillierPrivateKey.p sk <> PaillierPrivateKey.q sk ->
  HomomorphicEncryption.deserialize_public_key
    (HomomorphicEncryption.serialize_public_key pk) = Return pk
  /\ HomomorphicEncryption.deserialize_private_key
       (HomomorphicEncryption.serialize_private_key sk)
       (PaillierPrivateKey.public_key sk) = Return sk
  /\ HomomorphicEncryption.load_encrypted
       (EncryptedNumber.public_key x)
       (HomomorphicEncryption.dump_encrypted x) = Return x.
Proof.
  intros Hn Hpq. split; [| split].
  - apply codec_facts.deserialize_serialize_public_key.
  - now apply codec_facts.deserialize_serialize_private_key.
  - rewrite codec_facts.load_dump_encrypted. now destruct x.
Qed.

Lemma codec_round_trip_witness :
  HomomorphicEncryption.deserialize_public_key
    (HomomorphicEncryption.serialize_public_key pk1) = Return pk1
  /\ HomomorphicEncryption.deserialize_private_key
       (HomomorphicEncryption.serialize_private_key sk1)
       (PaillierPrivateKey.public_key sk1) = Return sk1
  /\ HomomorphicEncryption.load_encrypted
       (EncryptedNumber.public_key (EncryptedNumber.make pk1 12345 (-13)))
       (HomomorphicEncryption.dump_encrypted
          (EncryptedNumber.make pk1 12345 (-13)))
     = Return (EncryptedNumber.make pk1 12345 (-13)).
Proof.
  apply (codec_round_trip pk1 sk1 (EncryptedNumber.make pk1 12345 (-13))).
  - reflexivity.
  - intros H. vm_compute in H. discriminate H.
Defined.

(** C7, as the code has it.  In the wire forms, the ciphertext is carried
    as a decimal string; the modulus [n] and the primes [p], [q] are carried
    as JSON integer literals of arbitrary length (the digits unquoted), and
    so is the exponent. *)
Theorem wire_forms_of_integers
        (pk : PaillierPublicKey.t) (sk : PaillierPrivateKey.t)
        (x : EncryptedNumber.t) :
  HomomorphicEncryption.serialize_public_key pk
  = "{" ++ json.quote "n" ++ ": " ++ str (PaillierPublicKey.n pk) ++ "}"
  /\ wire_field (HomomorphicEncryption.serialize_public_key pk) "n"
     = Some (PyInt (PaillierPublicKey.n pk))
  /\ wire_field (HomomorphicEncryption.serialize_private_key sk) "p"
     = Some (PyInt (PaillierPrivateKey.p sk))
  /\ wire_field (HomomorphicEncryption.serialize_private_key sk) "q"
     = Some (PyInt (PaillierPrivateKey.q sk))
  /\ wire_field (HomomorphicEncryption.dump_encrypted x) "ciphertext"
     = Some (PyStr (str (EncryptedNumber.ciphertext x)))
  /\ wire_field (HomomorphicEncryption.dump_encrypted x) "exponent"
     = Some (PyInt (EncryptedNumber.exponent x)).
Proof.
  unfold wire_field, HomomorphicEncryption.serialize_public_key,
    HomomorphicEncryption.serialize_private_key,
    HomomorphicEncryption.dump_encrypted.
  rewrite codec_facts.loads_public_key, codec_facts.loads_private_key,
    codec_facts.loads_encrypted.
  repeat split.
Qed.

(** C7, as stated, fails: the modulus of the first certified key is not
    carried as a string. *)
Lemma public_key_modulus_is_not_a_string :
  wire_field (HomomorphicEncryption.serialize_public_key pk1) "n"
  = Some (PyInt (PaillierPublicKey.n pk1))
  /\ wire_field (HomomorphicEncryption.serialize_public_key pk1) "n"
     <> Some (PyStr (str (PaillierPublicKey.n pk1))).
Proof.
  unfold wire_field, HomomorphicEncryption.serialize_public_key.
  rewrite codec_facts.loads_public_key. split; [reflexivity | discriminate].
Qed.




(** ** The /compute route (C9, C10) *)






(* ================================================================== *)
(** * Further properties of the code *)
(* ================================================================== *)

(** ** Dicts, the key store and the remaining routes *)

Module extra_facts.
Import key_routes.

Lemma dict_get_set_same (items : list (string * object)) (k : string)
      (v : object) :
  dict_get (dict_set items k v) k = Some v.
Proof.
  induction items as [| [k' v'] items IH]; cbn [dict_set dict_get].
  - now rewrite String.eqb_refl.
  - destruct (String.eqb k' k) eqn:E; cbn [dict_get]; now rewrite E.
Qed.

Lemma dict_get_set_other (items : list (string * object)) (k k0 : string)
      (v : object) :
  k0 <> k -> dict_get (dict_set items k v) k0 = dict_get items k0.
Proof.
  intros Hne. induction items as [| [k' v'] items IH]; cbn [dict_set dict_get].
  - destruct (String.eqb_spec k k0); [congruence | reflexivity].
  - destruct (String.eqb_spec k' k) as [-> | Hk]; cbn [dict_get].
    + destruct (String.eqb_spec k k0); [congruence | reflexivity].
    + destruct (String.eqb k' k0); [reflexivity | exact IH].
Qed.

Section Key.
Variable pk : PaillierPublicKey.t.
Variable sk : PaillierPrivateKey.t.
Hypothesis Hkey : keypair pk sk.

Lemma key_pq :
  PaillierPrivateKey.p sk * PaillierPrivateKey.q sk = PaillierPublicKey.n pk
  /\ PaillierPrivateKey.p sk <> PaillierPrivateKey.q sk
  /\ PaillierPrivateKey.public_key sk = pk.
Proof. destruct Hkey as (H1 & _ & _ & H4 & H5 & _). auto. Qed.

(** [/decrypt] needs the private key only: it rebuilds the public key as
    [p * q] and decrypts what the ciphertext holds. *)
Lemma decrypt_value_holds (c : EncryptedNumber.t) (x : Number) :
  holds pk sk c x -> in_range pk x ->
  decrypt_value
    (DecryptRequest.make (HomomorphicEncryption.dump_encrypted c)
                         (HomomorphicEncryption.serialize_private_key sk))
  = Return (DecryptResponse.make x).
Proof.
  intros Hc Hx. destruct key_pq as (Hn & Hpq & Hsk).
  unfold decrypt_value.
  cbn [DecryptRequest.private_key DecryptRequest.encrypted_value].
  unfold HomomorphicEncryption.serialize_private_key at 1.
  rewrite codec_facts.loads_private_key. cbn [bind].
  change (getitem (PyDict [("p", PyInt (PaillierPrivateKey.p sk));
                           ("q", PyInt (PaillierPrivateKey.q sk))]) "p")
    with (Return (PyInt (PaillierPrivateKey.p sk))).
  change (getitem (PyDict [("p", PyInt (PaillierPrivateKey.p sk));
                           ("q", PyInt (PaillierPrivateKey.q sk))]) "q")
    with (Return (PyInt (PaillierPrivateKey.q sk))).
  cbn [bind operators.mul operators.index]. rewrite Hn.
  change (json.dumps (PyDict [("n", PyInt (PaillierPublicKey.n pk))]))
    with (HomomorphicEncryption.serialize_public_key pk).
  rewrite codec_facts.deserialize_serialize_public_key. cbn [bind].
  pose proof (codec_facts.deserialize_serialize_private_key sk) as E.
  rewrite Hsk in E. rewrite (E Hn Hpq). cbn [bind].
  rewrite (wrapper_facts.decrypt_number_holds pk sk Hkey c x Hc Hx).
  reflexivity.
Qed.

(** The comprehension of [/encrypt] gives one wire form per number, each
    of a ciphertext that holds its number. *)
Lemma encrypt_each_holds (draw : nat -> Z) (numbers : list Number) :
  (forall i, blinding pk (draw i)) ->
  Forall (in_range pk) numbers ->
  forall i,
  exists cs,
    encrypt_each pk numbers draw i
    = Return (map HomomorphicEncryption.dump_encrypted cs)
    /\ Forall2 (holds pk sk) cs numbers.
Proof.
  intros Hdraw Hall. induction Hall as [| x xs Hx Hxs IH]; intros i.
  - exists []. split; [reflexivity | constructor].
  - cbn [encrypt_each].
    destruct (wrapper_facts.encrypt_number_holds pk sk Hkey x (draw i) Hx
                (Hdraw i)) as (c & E & Hc).
    destruct (IH (S i)) as (cs & Es & Hcs).
    exists (c :: cs). rewrite E. cbn [bind]. rewrite Es. cbn [bind map].
    split; [reflexivity | now constructor].
Qed.

End Key.

(** Operands that are wire forms are rebuilt and added, whatever keys
    they were made under. *)
Lemma add_remaining_wire_forms (pk : PaillierPublicKey.t)
      (cs : list EncryptedNumber.t) :
  forall c0, EncryptedNumber.public_key c0 = pk ->
  exists c,
    HomomorphicEncryption.add_remaining
      pk c0 (map HomomorphicEncryption.dump_encrypted cs) = Return c
    /\ EncryptedNumber.public_key c = pk.
Proof.
  induction cs as [| c1 cs IH]; intros c0 H0.
  - exists c0. now split.
  - cbn [map HomomorphicEncryption.add_remaining].
    rewrite codec_facts.load_dump_encrypted. cbn [bind].
    destruct (error_facts.add_same_key c0
                (EncryptedNumber.make pk (EncryptedNumber.ciphertext c1)
                                      (EncryptedNumber.exponent c1)))
      as (c2 & E2 & H2); [exact H0 |].
    rewrite E2. cbn [bind]. apply IH. congruence.
Qed.


(** What [/compute] answers on wire forms of ciphertexts that hold
    plaintexts. *)
Section Compute.
Variable pk : PaillierPublicKey.t.
Variable sk : PaillierPrivateKey.t.
Hypothesis Hkey : keypair pk sk.



Lemma holds_repeat (c : EncryptedNumber.t) (x : Number) (m : nat) :
  holds pk sk c x -> Forall2 (holds pk sk) (repeat c m) (repeat x m).
Proof. intros H. induction m; cbn [repeat]; now constructor. Qed.

End Compute.

(** The handler of [/compute] turns every exception but its own into a
    status 500. *)
Lemma compute_handler (e : exn) :
  (forall st d, e <> HTTPException st d) ->
  match e with
  | HTTPException _ _ => Raise e
  | _ => Raise (HTTPException 500 (Failed "Computation failed: " e))
  end
  = (Raise (HTTPException 500 (Failed "Computation failed: " e))
     : result models.ComputeResponse).
Proof.
  intros H. destruct e; try reflexivity. now elim (H status_code detail).
Qed.

Lemma decoding_exn_not_http (e : exn) :
  decoding_exn e -> forall st d, e <> HTTPException st d.
Proof. intros H st d ->. exact H. Qed.

End extra_facts.

(** ** The exact sum in closed form *)

Module sum_facts.










(** Adding a number to itself over and over multiplies its mantissa. *)
Lemma number_sum_repeat (x : Number) (m : nat) :
  forall j,
    number_sum {| mantissa := j * mantissa x; scale := scale x |} (repeat x m)
    = {| mantissa := (j + Z.of_nat m) * mantissa x; scale := scale x |}.
Proof.
  induction m as [| m IH]; intros j.
  - cbn [repeat number_sum fold_left]. unfold number_sum. cbn [fold_left].
    f_equal. lia.
  - cbn [repeat].
    change (number_sum ?a (x :: ?l)) with (number_sum (number_add a x) l).
    assert (E : number_add {| mantissa := j * mantissa x; scale := scale x |} x
                = {| mantissa := (j + 1) * mantissa x; scale := scale x |}).
    { unfold number_add. cbn [mantissa scale].
      rewrite Z.min_id, Z.sub_diag, Z.pow_0_r. f_equal. lia. }
    rewrite E, IH. f_equal. lia.
Qed.

End sum_facts.

(** ** The /encrypt and /decrypt routes *)

Import key_routes.

(** X1. [/decrypt] needs the private key alone: for every freshly generated
    key pair, every blinding factor and every number in range, handing the
    encryption of the number and the serialized private key to [/decrypt]
    returns the number. *)
Theorem decrypt_route_round_trip
        (pk : PaillierPublicKey.t) (sk : PaillierPrivateKey.t)
        (x : Number) (r : Z) :
  HomomorphicEncryption.generate_keypair pk sk ->
  blinding pk r ->
  in_range pk x ->
  (e <- HomomorphicEncryption.encrypt_number pk x r ;;
   decrypt_value
     (DecryptRequest.make e (HomomorphicEncryption.serialize_private_key sk)))
  = Return (DecryptResponse.make x).
Proof.
  intros Hg Hr Hx. pose proof (key512_facts.generated_keypair _ _ _ Hg) as Hk.
  destruct (wrapper_facts.encrypt_number_holds pk sk Hk x r Hx Hr)
    as (c & E & Hc).
  rewrite E. cbn [bind]. now apply (extra_facts.decrypt_value_holds pk sk Hk).
Qed.

Lemma decrypt_route_round_trip_witness :
  (e <- HomomorphicEncryption.encrypt_number pk1 (of_int (-7)) 2 ;;
   decrypt_value
     (DecryptRequest.make e (HomomorphicEncryption.serialize_private_key sk1)))
  = Return (DecryptResponse.make (of_int (-7))).
Proof.
  apply decrypt_route_round_trip.
  - exact proth_facts.key1_generated.
  - split; [split |]; vm_compute; reflexivity.
  - unfold in_range. vm_compute. discriminate.
Defined.

(** X2. [/decrypt] multiplies the fields [p] and [q] as decoded, before
    any conversion: a private key whose primes are written as decimal
    strings, which [deserialize_private_key] accepts, is refused by
    [/decrypt] with status 500 (a [TypeError]), whatever the ciphertext. *)
Theorem decrypt_route_rejects_string_primes
        (sk : PaillierPrivateKey.t) (encrypted_value : string) :
  PaillierPrivateKey.p sk * PaillierPrivateKey.q sk
  = PaillierPublicKey.n (PaillierPrivateKey.public_key sk) ->
  PaillierPrivateKey.p sk <> PaillierPrivateKey.q sk ->
  HomomorphicEncryption.deserialize_private_key
    (json.dumps (PyDict [("p", PyStr (str (PaillierPrivateKey.p sk)));
                         ("q", PyStr (str (PaillierPrivateKey.q sk)))]))
    (PaillierPrivateKey.public_key sk) = Return sk
  /\ decrypt_value
       (DecryptRequest.make
          encrypted_value
          (json.dumps (PyDict [("p", PyStr (str (PaillierPrivateKey.p sk)));
                               ("q", PyStr (str (PaillierPrivateKey.q sk)))])))
     = Raise (HTTPException 500 (Failed "Decryption failed: " TypeError)).
Proof.
  intros Hn Hpq.
  assert (Hl : json.loads
                 (json.dumps
                    (PyDict [("p", PyStr (str (PaillierPrivateKey.p sk)));
                             ("q", PyStr (str (PaillierPrivateKey.q sk)))]))
               = Return (PyDict [("p", PyStr (str (PaillierPrivateKey.p sk)));
                                 ("q", PyStr (str (PaillierPrivateKey.q sk)))])).
  { apply json_facts.loads_dumps_flat; [discriminate | |].
    - cbn [forallb]. unfold shapes.flat_item. cbn [shapes.flat_value fst snd].
      rewrite !codec_facts.str_plain. reflexivity.
    - repeat constructor; cbn; intuition congruence. }
  split.
  - unfold HomomorphicEncryption.deserialize_private_key. rewrite Hl.
    cbn [bind].
    change (getitem (PyDict [("p", PyStr (str (PaillierPrivateKey.p sk)));
                             ("q", PyStr (str (PaillierPrivateKey.q sk)))]) "p")
      with (Return (PyStr (str (PaillierPrivateKey.p sk)))).
    change (getitem (PyDict [("p", PyStr (str (PaillierPrivateKey.p sk)));
                             ("q", PyStr (str (PaillierPrivateKey.q sk)))]) "q")
      with (Return (PyStr (str (PaillierPrivateKey.q sk)))).
    cbn [bind int]. rewrite !text_facts.int_of_str_str. cbn [bind].
    unfold PaillierPrivateKey.init.
    apply Z.eqb_eq in Hn. apply Z.eqb_neq in Hpq. rewrite Hn, Hpq.
    now destruct sk.
  - unfold decrypt_value. cbn [DecryptRequest.private_key]. rewrite Hl.
    cbn [bind try_except].
    change (getitem (PyDict [("p", PyStr (str (PaillierPrivateKey.p sk)));
                             ("q", PyStr (str (PaillierPrivateKey.q sk)))]) "p")
      with (Return (PyStr (str (PaillierPrivateKey.p sk)))).
    change (getitem (PyDict [("p", PyStr (str (PaillierPrivateKey.p sk)));
                             ("q", PyStr (str (PaillierPrivateKey.q sk)))]) "q")
      with (Return (PyStr (str (PaillierPrivateKey.q sk)))).
    reflexivity.
Qed.

Lemma decrypt_route_rejects_string_primes_witness :
  HomomorphicEncryption.deserialize_private_key
    (json.dumps (PyDict [("p", PyStr (str (PaillierPrivateKey.p sk1)));
                         ("q", PyStr (str (PaillierPrivateKey.q sk1)))]))
    (PaillierPrivateKey.public_key sk1) = Return sk1
  /\ decrypt_value
       (DecryptRequest.make
          "{}"
          (json.dumps (PyDict [("p", PyStr (str (PaillierPrivateKey.p sk1)));
                               ("q", PyStr (str (PaillierPrivateKey.q sk1)))])))
     = Raise (HTTPException 500 (Failed "Decryption failed: " TypeError)).
Proof.
  apply (decrypt_route_rejects_string_primes sk1 "{}").
  - reflexivity.
  - intros H. vm_compute in H. discriminate H.
Defined.

(** X3. [/encrypt] on binary64 numbers succeeds under every freshly
    generated key pair: it answers with the two serialized keys and with as
    many ciphertexts as numbers, and the [i]-th ciphertext, handed to
    [/decrypt] with the returned private key, gives the [i]-th number. *)
Theorem encrypt_route_answers
        (st : storage) (numbers : list Number)
        (pk : PaillierPublicKey.t) (sk : PaillierPrivateKey.t)
        (draw : nat -> Z) :
  HomomorphicEncryption.generate_keypair pk sk ->
  (forall i, blinding pk (draw i)) ->
  Forall is_float numbers ->
  exists encrypted,
    snd (encrypt_numbers st (EncryptRequest.make numbers) pk sk draw)
    = Return (EncryptResponse.make
                encrypted
                (HomomorphicEncryption.serialize_public_key pk)
                (HomomorphicEncryption.serialize_private_key sk))
    /\ List.length encrypted = List.length numbers
    /\ Forall2 (fun e x =>
                  decrypt_value
                    (DecryptRequest.make
                       e (HomomorphicEncryption.serialize_private_key sk))
                  = Return (DecryptResponse.make x))
               encrypted numbers.
Proof.
  intros Hg Hdraw Hfl. pose proof (key512_facts.generated_keypair _ _ _ Hg) as Hk.
  assert (Hin : Forall (in_range pk) numbers).
  { eapply Forall_impl; [| exact Hfl].
    intros x. apply (key512_facts.float_in_range pk sk x Hg). }
  destruct (extra_facts.encrypt_each_holds pk sk Hk draw numbers Hdraw Hin 0%nat)
    as (cs & E & Hcs).
  exists (map HomomorphicEncryption.dump_encrypted cs).
  unfold encrypt_numbers. cbn [EncryptRequest.numbers]. rewrite E.
  cbn [bind snd]. split; [reflexivity |]. split.
  - rewrite length_map. now apply Forall2_length in Hcs.
  - clear E. induction Hcs as [| c x cs xs Hc Hcs IH]; cbn [map];
      constructor.
    + apply (extra_facts.decrypt_value_holds pk sk Hk c x Hc).
      now inversion Hin.
    + apply IH; [now inversion Hfl | now inversion Hin].
Qed.

Lemma encrypt_route_answers_witness :
  exists encrypted,
    snd (encrypt_numbers [] (EncryptRequest.make [of_int 10; of_int 20])
                         pk1 sk1 (fun _ => 2))
    = Return (EncryptResponse.make
                encrypted
                (HomomorphicEncryption.serialize_public_key pk1)
                (HomomorphicEncryption.serialize_private_key sk1))
    /\ List.length encrypted = List.length [of_int 10; of_int 20]
    /\ Forall2 (fun e x =>
                  decrypt_value
                    (DecryptRequest.make
                       e (HomomorphicEncryption.serialize_private_key sk1))
                  = Return (DecryptResponse.make x))
               encrypted [of_int 10; of_int 20].
Proof.
  apply encrypt_route_answers.
  - exact proth_facts.key1_generated.
  - intros i. split; [split |]; vm_compute; reflexivity.
  - repeat constructor; vm_compute; reflexivity.
Defined.

(** X4. The key store of [/encrypt]: after a successful call the returned
    public key is bound to the returned private key and every other binding
    is as before; a failing call answers with status 500 and leaves the
    store untouched. *)
Theorem encrypt_route_store
        (st : storage) (request : EncryptRequest.t)
        (pk : PaillierPublicKey.t) (sk : PaillierPrivateKey.t)
        (draw : nat -> Z) :
  match encrypt_numbers st request pk sk draw with
  | (st', Return response) =>
      dict_get st' (EncryptResponse.public_key response)
      = Some (PyStr (EncryptResponse.private_key response))
      /\ forall k, k <> EncryptResponse.public_key response ->
                   dict_get st' k = dict_get st k
  | (st', Raise e) =>
      st' = st
      /\ exists cause,
           e = HTTPException 500 (Failed "Encryption failed: " cause)
  end.
Proof.
  unfold encrypt_numbers.
  destruct (encrypt_each pk (EncryptRequest.numbers request) draw 0)
    as [encrypted | e]; cbn [bind].
  - cbn [EncryptResponse.public_key EncryptResponse.private_key]. split.
    + apply extra_facts.dict_get_set_same.
    + intros k Hk. now apply extra_facts.dict_get_set_other.
  - split; [reflexivity | now exists e].
Qed.

(** ** The routes together, and the edges of /compute *)





(** X7. [/compute] never lets an exception of the codec or of the engine
    through: whenever it fails, it raises an [HTTPException], with status
    400 and one of its two messages, or with status 500 and a detail that
    starts with "Computation failed: " followed by the text of the cause,
    which is not itself an [HTTPException]. *)
Theorem compute_failures_are_http_errors
        (request : models.ComputeRequest) (e : exn) :
  routes.compute_on_encrypted request = Raise e ->
  e = HTTPException 400
        (Message "Invalid operation. Use 'add', 'sum', or 'multiply'")
  \/ e = HTTPException 400
           (Message "Multiplier required for multiply operation")
  \/ exists cause,
       e = HTTPException 500 (Failed "Computation failed: " cause)
       /\ forall st d, cause <> HTTPException st d.
Proof.
  unfold routes.compute_on_encrypted. intros H.
  assert (Hcause : forall cause,
             (forall st d, cause <> HTTPException st d) ->
             match cause with
             | HTTPException _ _ => Raise cause
             | _ => Raise (HTTPException 500
                             (Failed "Computation failed: " cause))
             end = (Raise e : result models.ComputeResponse) ->
             exists cause,
               e = HTTPException 500 (Failed "Computation failed: " cause)
               /\ forall st d, cause <> HTTPException st d).
  { intros cause Hc Hm. rewrite (extra_facts.compute_handler cause Hc) in Hm.
    exists cause. split; [now inversion Hm | exact Hc]. }
  destruct (HomomorphicEncryption.deserialize_public_key
              (models.public_key request)) as [pk | e0] eqn:Epk;
    cbn [bind try_except] in H.
  - destruct (String.eqb (lower (models.operation request)) "add"
              || String.eqb (lower (models.operation request)) "sum")%bool.
    + destruct (HomomorphicEncryption.add_encrypted_numbers
                  pk (models.encrypted_numbers request)) as [s | e1] eqn:Ea;
        cbn [bind try_except] in H; [discriminate H |].
      right. right. apply (Hcause e1); [| exact H].
      destruct (error_facts.add_encrypted_numbers_raises pk _ e1 Ea)
        as [-> | Hd]; [discriminate |].
      now apply extra_facts.decoding_exn_not_http.
    + destruct (String.eqb (lower (models.operation request)) "multiply").
      * destruct (models.multiplier request) as [k |].
        -- destruct (list_getitem (models.encrypted_numbers request) 0)
             as [first | e1] eqn:Ef; cbn [bind try_except] in H.
           ++ destruct (HomomorphicEncryption.multiply_encrypted_by_scalar
                          pk first k) as [s | e1] eqn:Em;
                cbn [bind try_except] in H; [discriminate H |].
              right. right. apply (Hcause e1); [| exact H].
              destruct (error_facts.multiply_raises pk first k e1 Em)
                as [Hd | [-> | ->]]; [| discriminate | discriminate].
              now apply extra_facts.decoding_exn_not_http.
           ++ right. right. apply (Hcause e1); [| exact H].
              unfold list_getitem in Ef.
              destruct (nth_error _ _); [discriminate Ef |].
              injection Ef as <-. discriminate.
        -- cbn [bind try_except] in H. right. left. now inversion H.
      * cbn [bind try_except] in H. left. now inversion H.
  - right. right. apply (Hcause e0); [| exact H].
    apply extra_facts.decoding_exn_not_http.
    now apply (error_facts.deserialize_public_key_raises _ _ Epk).
Qed.

Lemma compute_failures_are_http_errors_witness :
  HTTPException 500 (Failed "Computation failed: " (KeyError "n"))
  = HTTPException 400
      (Message "Invalid operation. Use 'add', 'sum', or 'multiply'")
  \/ HTTPException 500 (Failed "Computation failed: " (KeyError "n"))
     = HTTPException 400
         (Message "Multiplier required for multiply operation")
  \/ exists cause,
       HTTPException 500 (Failed "Computation failed: " (KeyError "n"))
       = HTTPException 500 (Failed "Computation failed: " cause)
       /\ forall st d, cause <> HTTPException st d.
Proof.
  apply (compute_failures_are_http_errors
           {| models.encrypted_numbers := [];
              models.public_key := "{}";
              models.operation := "add";
              models.multiplier := None |}).
  reflexivity.
Defined.

(** X8. "multiply" on an empty list of ciphertexts: with a public key that
    decodes and a multiplier present, the handler reads element 0 of the
    list, and the [IndexError] is answered with status 500, not 400. *)
Theorem multiply_on_empty_list_gets_status_500
        (request : models.ComputeRequest) (pk : PaillierPublicKey.t)
        (k : Number) :
  HomomorphicEncryption.deserialize_public_key (models.public_key request)
  = Return pk ->
  lower (models.operation request) = "multiply" ->
  models.multiplier request = Some k ->
  models.encrypted_numbers request = [] ->
  routes.compute_on_encrypted request
  = Raise (HTTPException 500 (Failed "Computation failed: " IndexError)).
Proof.
  intros Hpk Hop Hm Hl. unfold routes.compute_on_encrypted.
  rewrite Hpk, Hop, Hm, Hl. reflexivity.
Qed.

Lemma multiply_on_empty_list_gets_status_500_witness :
  routes.compute_on_encrypted
    {| models.encrypted_numbers := [];
       models.public_key := HomomorphicEncryption.serialize_public_key pk1;
       models.operation := "multiply";
       models.multiplier := Some (of_int 3) |}
  = Raise (HTTPException 500 (Failed "Computation failed: " IndexError)).
Proof.
  apply (multiply_on_empty_list_gets_status_500
           {| models.encrypted_numbers := [];
              models.public_key :=
                HomomorphicEncryption.serialize_public_key pk1;
              models.operation := "multiply";
              models.multiplier := Some (of_int 3) |} pk1 (of_int 3));
    [apply codec_facts.deserialize_serialize_public_key
    | reflexivity | reflexivity | reflexivity].
Defined.



(** X14. "add" or "sum" on an empty list of ciphertexts: with a public key
    that decodes, the [IndexError] of [add_encrypted_numbers] is answered
    by [/compute] with status 500, whatever the multiplier; there is no
    empty sum. *)
Theorem sum_on_empty_list_gets_status_500
        (request : models.ComputeRequest) (pk : PaillierPublicKey.t) :
  HomomorphicEncryption.deserialize_public_key (models.public_key request)
  = Return pk ->
  lower (models.operation request) = "add"
  \/ lower (models.operation request) = "sum" ->
  models.encrypted_numbers request = [] ->
  routes.compute_on_encrypted request
  = Raise (HTTPException 500 (Failed "Computation failed: " IndexError)).
Proof.
  intros Hpk Hop Hl. unfold routes.compute_on_encrypted.
  rewrite Hpk, Hl. destruct Hop as [-> | ->]; reflexivity.
Qed.

Lemma sum_on_empty_list_gets_status_500_witness :
  routes.compute_on_encrypted
    {| models.encrypted_numbers := [];
       models.public_key := HomomorphicEncryption.serialize_public_key pk1;
       models.operation := "SUM";
       models.multiplier := None |}
  = Raise (HTTPException 500 (Failed "Computation failed: " IndexError)).
Proof.
  apply (sum_on_empty_list_gets_status_500
           {| models.encrypted_numbers := [];
              models.public_key :=
                HomomorphicEncryption.serialize_public_key pk1;
              models.operation := "SUM";
              models.multiplier := None |} pk1);
    [apply codec_facts.deserialize_serialize_public_key
    | right; reflexivity | reflexivity].
Defined.

(** ** The wrapper: decoding, operands that do not decode, and how the
    operations compose *)




(** X12. Adding a ciphertext to itself [m + 1] times and multiplying it by
    the integer [m + 1] decrypt to the same number, the exact product: for
    every freshly generated key pair, every binary64 number and every
    count below [2^57]. *)
Theorem repeated_addition_is_scalar_multiplication
        (x : Number) (m : nat)
        (pk : PaillierPublicKey.t) (sk : PaillierPrivateKey.t) (r : Z) :
  HomomorphicEncryption.generate_keypair pk sk ->
  blinding pk r ->
  is_float x ->
  Z.of_nat (S m) < 2 ^ 57 ->
  exists e,
    HomomorphicEncryption.encrypt_number pk x r = Return e
    /\ (s <- HomomorphicEncryption.add_encrypted_numbers pk (repeat e (S m)) ;;
        HomomorphicEncryption.decrypt_number sk s)
       = Return (number_mul x (of_int (Z.of_nat (S m))))
    /\ (s <- HomomorphicEncryption.multiply_encrypted_by_scalar
               pk e (of_int (Z.of_nat (S m))) ;;
        HomomorphicEncryption.decrypt_number sk s)
       = Return (number_mul x (of_int (Z.of_nat (S m)))).
Proof.
  intros Hg Hr Hx Hm.
  pose proof (key512_facts.generated_keypair _ _ _ Hg) as Hk.
  assert (Hfm : is_float (of_int (Z.of_nat (S m))))
    by (apply key512_facts.small_int_is_float; lia).
  pose proof (key512_facts.float_product_in_range pk sk x _ Hg Hx Hfm) as Hprod.
  destruct (wrapper_facts.encrypt_number_holds pk sk Hk x r
              (key512_facts.float_in_range pk sk x Hg Hx) Hr) as (c & E & Hc).
  exists (HomomorphicEncryption.dump_encrypted c).
  split; [exact E | split].
  - destruct (wrapper_facts.add_encrypted_numbers_holds pk sk Hk c x
                (repeat c m) (repeat x m) Hc
                (extra_facts.holds_repeat pk sk c x m Hc)) as (c' & Ea & Hc').
    change (repeat (HomomorphicEncryption.dump_encrypted c) (S m))
      with (HomomorphicEncryption.dump_encrypted c
            :: repeat (HomomorphicEncryption.dump_encrypted c) m).
    replace (repeat (HomomorphicEncryption.dump_encrypted c) m)
      with (map HomomorphicEncryption.dump_encrypted (repeat c m))
      by apply map_repeat.
    change (HomomorphicEncryption.dump_encrypted c
            :: map HomomorphicEncryption.dump_encrypted (repeat c m))
      with (map HomomorphicEncryption.dump_encrypted (c :: repeat c m)).
    rewrite Ea. cbn [bind].
    assert (Esum : number_sum x (repeat x m)
                   = number_mul x (of_int (Z.of_nat (S m)))).
    { pose proof (sum_facts.number_sum_repeat x m 1) as Hs.
      rewrite Z.mul_1_l in Hs.
      replace {| mantissa := mantissa x; scale := scale x |} with x in Hs
        by now destruct x.
      rewrite Hs. unfold number_mul, of_int. cbn [mantissa scale].
      f_equal; lia. }
    rewrite Esum in Hc'.
    now apply (wrapper_facts.decrypt_number_holds pk sk Hk).
  - destruct (wrapper_facts.multiply_holds pk sk Hk c x
                (of_int (Z.of_nat (S m))) Hc
                (key512_facts.float_in_range pk sk _ Hg Hfm))
      as (c' & Em & Hc').
    rewrite Em. cbn [bind].
    now apply (wrapper_facts.decrypt_number_holds pk sk Hk).
Qed.

Lemma repeated_addition_is_scalar_multiplication_witness :
  exists e,
    HomomorphicEncryption.encrypt_number pk1 (of_int 7) 2 = Return e
    /\ (s <- HomomorphicEncryption.add_encrypted_numbers pk1 (repeat e 3) ;;
        HomomorphicEncryption.decrypt_number sk1 s)
       = Return (number_mul (of_int 7) (of_int (Z.of_nat 3)))
    /\ (s <- HomomorphicEncryption.multiply_encrypted_by_scalar
               pk1 e (of_int (Z.of_nat 3)) ;;
        HomomorphicEncryption.decrypt_number sk1 s)
       = Return (number_mul (of_int 7) (of_int (Z.of_nat 3))).
Proof.
  apply (repeated_addition_is_scalar_multiplication (of_int 7) 2 pk1 sk1 2).
  - exact proth_facts.key1_generated.
  - split; [split |]; vm_compute; reflexivity.
  - vm_compute; reflexivity.
  - vm_compute; reflexivity.
Defined.


